(** * Duplicate-lead detection and merging: [scripts/merge_leads.py]

    A shallow embedding of the script's three parts

    - [find_duplicates_for_lead]  (the duplicate finder),
    - [merge_lead]                (the merge executor, gated by [--confirmed]),
    - the [__main__] loop         (the walker over the whole lead collection),

    followed by the properties of the specification that concern them.

    The script is Python 2: values decoded from JSON are [unicode] objects
    (sequences of code points), the query sent to the server is a byte
    string.  Both are lists of integers here.  The remote lead store is
    reached through the API client only; it is an interface ([RemoteStore])
    of which the development fixes nothing but the shape of its answers. *)

From stdpp Require Import gmap list strings.
From Stdlib Require Import ZArith Lia Sorted.

Open Scope Z_scope.

Set Warnings "-clear-no-such-hyp".

(** ** Strings *)

(** A Python 2 [unicode] object: its code points. *)
Abbreviation unicode := (list Z) (only parsing).
(** A Python 2 [str] object: its octets. *)
Abbreviation bytestr := (list Z) (only parsing).

(** An ASCII literal, as code points (or octets: they coincide on ASCII). *)
Definition str (s : string) : list Z :=
  map (λ a, Z.of_nat (Ascii.nat_of_ascii a)) (String.list_ascii_of_string s).

(** The double quote character. *)
Definition dquote : Z := 34.

(** The two tables of the Unicode character database that [unicode.lower]
    and [unicode.strip] consult, one character at a time. *)
Class UnicodeDB := {
  tolower : Z → Z;
  isspace : Z → bool
}.

(** The tables restricted to ASCII: on ASCII they agree with every version
    of the database. *)
Definition ascii_tolower (c : Z) : Z :=
  if (65 <=? c) && (c <=? 90) then c + 32 else c.

Definition ascii_isspace (c : Z) : bool :=
  ((9 <=? c) && (c <=? 13)) || ((28 <=? c) && (c <=? 32)).

Definition ascii_db : UnicodeDB :=
  {| tolower := ascii_tolower; isspace := ascii_isspace |}.

Section Strings.
Context {udb : UnicodeDB}.

(** [s.lower()] *)
Definition lower (s : unicode) : unicode := map tolower s.

(** [s.lstrip()] *)
Fixpoint lstrip (s : unicode) : unicode :=
  match s with
  | [] => []
  | c :: s' => if isspace c then lstrip s' else s
  end.

(** [s.rstrip()] *)
Definition rstrip (s : unicode) : unicode := reverse (lstrip (reverse s)).

(** [s.strip()] *)
Definition strip (s : unicode) : unicode := rstrip (lstrip s).
End Strings.

(** [sep.join(parts)] *)
Fixpoint join (sep : bytestr) (parts : list bytestr) : bytestr :=
  match parts with
  | [] => []
  | [p] => p
  | p :: ps => p ++ sep ++ join sep ps
  end.

(** *** UTF-8 *)

(** The octets of one code point, as [unicode.encode('utf-8')] emits them. *)
Definition utf8_encode_char (c : Z) : bytestr :=
  if c <? 0x80 then [c]
  else if c <? 0x800 then
    [Z.lor 0xC0 (Z.shiftr c 6);
     Z.lor 0x80 (Z.land c 0x3F)]
  else if c <? 0x10000 then
    [Z.lor 0xE0 (Z.shiftr c 12);
     Z.lor 0x80 (Z.land (Z.shiftr c 6) 0x3F);
     Z.lor 0x80 (Z.land c 0x3F)]
  else
    [Z.lor 0xF0 (Z.shiftr c 18);
     Z.lor 0x80 (Z.land (Z.shiftr c 12) 0x3F);
     Z.lor 0x80 (Z.land (Z.shiftr c 6) 0x3F);
     Z.lor 0x80 (Z.land c 0x3F)].

(** [val.encode('utf-8')] *)
Definition utf8_encode (s : unicode) : bytestr :=
  flat_map utf8_encode_char s.

(** A continuation octet, [10xxxxxx]. *)
Definition is_cont (b : Z) : bool := (0x80 <=? b) && (b <? 0xC0).

(** The reading of an octet string as UTF-8: what the text denotes. *)
Fixpoint utf8_decode (b : bytestr) : option unicode :=
  match b with
  | [] => Some []
  | b0 :: t0 =>
    if b0 <? 0x80 then cons b0 <$> utf8_decode t0
    else if b0 <? 0xC0 then None
    else if b0 <? 0xE0 then
      match t0 with
      | b1 :: t1 =>
        if is_cont b1
        then cons ((b0 - 0xC0) * 64 + (b1 - 0x80)) <$> utf8_decode t1
        else None
      | _ => None
      end
    else if b0 <? 0xF0 then
      match t0 with
      | b1 :: b2 :: t2 =>
        if is_cont b1 && is_cont b2
        then cons ((b0 - 0xE0) * 4096 + (b1 - 0x80) * 64 + (b2 - 0x80))
               <$> utf8_decode t2
        else None
      | _ => None
      end
    else
      match t0 with
      | b1 :: b2 :: b3 :: t3 =>
        if is_cont b1 && is_cont b2 && is_cont b3
        then cons ((b0 - 0xF0) * 262144 + (b1 - 0x80) * 4096
                   + (b2 - 0x80) * 64 + (b3 - 0x80))
               <$> utf8_decode t3
        else None
      | _ => None
      end
  end.

(** ** Data model *)

(** One entry of a contact's [emails] list. *)
Record EmailEntry := { email : unicode; email_type : unicode }.
(** One entry of a contact's [phones] list. *)
Record PhoneEntry := { phone : unicode; phone_type : unicode }.

Record Contact := {
  contact_name : unicode;
  emails : list EmailEntry;
  phones : list PhoneEntry
}.

(** A lead as the store hands it out (the requested [_fields]), with the
    creation time by which the store sorts. *)
Record Lead := {
  lead_id : unicode;
  display_name : unicode;
  name : unicode;
  status_label : unicode;
  contacts : list Contact;
  opportunities : list unicode;
  date_created : Z
}.

(** [--field] *)
Inductive comparator := Company | Email | Phone.

(** ['{0}'.format(comparator_field)] *)
Definition field_name (f : comparator) : bytestr :=
  match f with
  | Company => str "company"
  | Email => str "email"
  | Phone => str "phone"
  end.

(** The command line. *)
Record Args := { field : comparator; confirmed : bool }.

(** ** The remote store *)

(** The answer to [api.get('lead', ...)]. *)
Record Response := {
  data : list Lead;
  total_results : Z;
  has_more : bool
}.

(** The body of the answer to [api.post('lead/merge', ...)]. *)
Abbreviation json := (list Z) (only parsing).

Class RemoteStore (S : Type) := {
  (** [api.get('lead', params={'query': q, '_skip': skip, ...})] *)
  api_get : S → bytestr → Z → Response;
  (** [api.post('lead/merge', data={'source': s, 'destination': d})] *)
  api_post_merge : S → unicode → unicode → json * S
}.

(** What the run does that can be observed from outside: the requests with
    their answers, and the lines logged at level [INFO]. *)
Inductive Event :=
| GetLeads (query : bytestr) (skip : Z) (resp : Response)
| PostMerge (source destination : unicode) (resp : json)
| LogDuplicates (lead : Lead) (duplicates : list Lead)
| LogMerged (source destination : Lead) (resp : json)
| LogComplete (total_leads_merged : Z).

Record World (S : Type) := MkWorld { store : S; trace : list Event }.
Arguments MkWorld {S}.
Arguments store {S}.
Arguments trace {S}.

(** Computations: they read and change the world, and may fail to return
    (a loop that ran out of fuel). *)
Definition M (S A : Type) : Type := World S → option (A * World S).

Definition ret {S A} (a : A) : M S A := λ w, Some (a, w).

Definition bind {S A B} (m : M S A) (k : A → M S B) : M S B :=
  λ w, match m w with
       | Some (a, w') => k a w'
       | None => None
       end.

Definition diverge {S A} : M S A := λ _, None.

Notation "'let*' x := m 'in' k" := (bind m (λ x, k))
  (at level 10, x binder, m at level 100, k at level 200).
Notation "m ;;; k" := (bind m (λ _, k))
  (at level 100, k at level 200, right associativity).

Definition emit {S} (e : Event) : M S () :=
  λ w, Some ((), MkWorld (store w) (trace w ++ [e])).

Section Script.
Context {udb : UnicodeDB} {S : Type} {api : RemoteStore S}.

Definition get (query : bytestr) (skip : Z) : M S Response :=
  λ w, let resp := api_get (store w) query skip in
       Some (resp, MkWorld (store w) (trace w ++ [GetLeads query skip resp])).

Definition post_merge (source destination : unicode) : M S json :=
  λ w, let '(resp, s') := api_post_merge (store w) source destination in
       Some (resp, MkWorld s' (trace w ++ [PostMerge source destination resp])).

(** *** [find_duplicates_for_lead] *)

(** [e[comparator_field] for e in c[comparator_field_plural]] *)
Definition elems (f : comparator) (c : Contact) : list unicode :=
  match f with
  | Company => []
  | Email => map email (emails c)
  | Phone => map phone (phones c)
  end.

(** Lines 82-89. *)
Definition search_values (lead : Lead) (f : comparator) : list unicode :=
  match f with
  | Company => [name lead]
  | _ => flat_map (elems f) (contacts lead)
  end.

(** Lines 93-96 and 126-129: the set of a lead's emails (or phones). *)
Definition elem_set (f : comparator) (l : Lead) : gset unicode :=
  foldl (λ acc contact, foldl (λ acc e, acc ∪ {[ e ]}) acc (elems f contact))
        ∅ (contacts l).

(** Lines 99-102. *)
Definition quote (v : bytestr) : bytestr := [dquote] ++ v ++ [dquote].

Definition build_query (f : comparator) (vals : list unicode) : bytestr :=
  field_name f ++ str " in ("
    ++ join (str ", ") (map (λ val, quote (utf8_encode val)) vals)
    ++ str ") sort:date_created".

(** Lines 122-137: is [l] an exact match of [lead]? *)
Definition is_exact_match (f : comparator) (lead l : Lead) : bool :=
  match f with
  | Company =>
    bool_decide (lower (strip (name lead)) = lower (strip (name l)))
  | _ => bool_decide (elem_set f lead ∩ elem_set f l ≠ ∅)
  end.

(** Lines 118-137: the [for l in leads] loop, appending to [duplicates]. *)
Fixpoint scan (f : comparator) (lead : Lead) (leads duplicates : list Lead)
  : list Lead :=
  match leads with
  | [] => duplicates
  | l :: leads' =>
    if bool_decide (lead_id l = lead_id lead) then
      scan f lead leads' duplicates
    else if is_exact_match f lead l then
      scan f lead leads' (duplicates ++ [l])
    else scan f lead leads' duplicates
  end.

(** Lines 105-140: the [while has_more] loop. *)
Fixpoint search_loop (fuel : nat) (f : comparator) (lead : Lead)
    (query : bytestr) (offset : Z) (duplicates : list Lead)
  : M S (list Lead) :=
  match fuel with
  | O => diverge
  | Datatypes.S fuel' =>
    let* resp := get query offset in
    let leads := data resp in
    let duplicates := scan f lead leads duplicates in
    let offset := offset + Z.of_nat (length leads) in
    if has_more resp
    then search_loop fuel' f lead query offset duplicates
    else ret duplicates
  end.

Definition find_duplicates_for_lead (fuel : nat) (lead : Lead)
    (comparator_field : comparator) : M S (list Lead) :=
  let search_values := search_values lead comparator_field in
  match search_values with
  | [] => ret []
  | _ => search_loop fuel comparator_field lead
           (build_query comparator_field search_values) 0 []
  end.

(** *** [merge_lead] *)

(** Lines 152-159: the [for source_lead in duplicates] loop. *)
Fixpoint merge_each (destination_lead : Lead) (duplicates : list Lead)
  : M S () :=
  match duplicates with
  | [] => ret ()
  | source_lead :: duplicates' =>
    let* resp := post_merge (lead_id source_lead)
                            (lead_id destination_lead) in
    emit (LogMerged source_lead destination_lead resp) ;;;
    merge_each destination_lead duplicates'
  end.

Definition merge_lead (args : Args) (destination_lead : Lead)
    (duplicates : list Lead) : M S () :=
  if negb (confirmed args) then ret ()
  else merge_each destination_lead duplicates.

(** *** [__main__] *)

(** The variables of the main loop. *)
Record Vars := MkVars {
  has_more_pages : bool;
  offset : Z;
  total_leads_merged : Z;
  leads_merged_this_page : Z;
  duplicates_this_page : gset unicode
}.

(** Lines 164-167. *)
Definition initial_vars : Vars :=
  {| has_more_pages := true; offset := 0; total_leads_merged := 0;
     leads_merged_this_page := 0; duplicates_this_page := ∅ |}.

(** Lines 176-177, at the top of every page. *)
Definition start_page (v : Vars) : Vars :=
  {| has_more_pages := has_more_pages v; offset := offset v;
     total_leads_merged := total_leads_merged v;
     leads_merged_this_page := 0; duplicates_this_page := ∅ |}.

(** Line 197. *)
Definition add_duplicates (duplicates : list Lead) (v : Vars) : Vars :=
  {| has_more_pages := has_more_pages v; offset := offset v;
     total_leads_merged := total_leads_merged v;
     leads_merged_this_page := leads_merged_this_page v;
     duplicates_this_page :=
       duplicates_this_page v ∪ list_to_set (map lead_id duplicates) |}.

(** Lines 202-203. *)
Definition count_merge (duplicates : list Lead) (v : Vars) : Vars :=
  {| has_more_pages := has_more_pages v; offset := offset v;
     total_leads_merged := total_leads_merged v + 1;
     leads_merged_this_page :=
       leads_merged_this_page v + (Z.of_nat (length duplicates) + 1);
     duplicates_this_page := duplicates_this_page v |}.

(** Lines 213-214. *)
Definition finish_page (resp : Response) (v : Vars) : Vars :=
  {| has_more_pages := has_more resp;
     offset := offset v
       + Z.max 0 (Z.of_nat (length (data resp)) - leads_merged_this_page v);
     total_leads_merged := total_leads_merged v;
     leads_merged_this_page := leads_merged_this_page v;
     duplicates_this_page := duplicates_this_page v |}.

(** Lines 193-203: the body of the [for idx, lead in enumerate(leads)]
    loop (the progress bar left out). *)
Definition process_lead (fuel : nat) (args : Args) (lead : Lead) (v : Vars)
  : M S Vars :=
  if bool_decide (lead_id lead ∈ duplicates_this_page v) then ret v
  else
    let* duplicates := find_duplicates_for_lead fuel lead (field args) in
    let v := add_duplicates duplicates v in
    match duplicates with
    | [] => ret v
    | _ =>
      emit (LogDuplicates lead duplicates) ;;;
      merge_lead args lead duplicates ;;;
      ret (count_merge duplicates v)
    end.

(** Line 186: the [for] loop over the page. *)
Fixpoint process_leads (fuel : nat) (args : Args) (leads : list Lead)
    (v : Vars) : M S Vars :=
  match leads with
  | [] => ret v
  | lead :: leads' =>
    let* v := process_lead fuel args lead v in
    process_leads fuel args leads' v
  end.

(** Lines 170-214: one turn of the [while has_more] loop. *)
Definition process_page (fuel : nat) (args : Args) (v : Vars) : M S Vars :=
  let* resp := get (str "sort:date_created") (offset v) in
  let* v := process_leads fuel args (data resp) (start_page v) in
  ret (finish_page resp v).

(** Lines 169-218. [pages] bounds the number of pages fetched, [fuel] the
    number of pages of each duplicate search. *)
Fixpoint walk (pages fuel : nat) (args : Args) (v : Vars) : M S Vars :=
  if has_more_pages v then
    match pages with
    | O => diverge
    | Datatypes.S pages' =>
      let* v := process_page fuel args v in
      walk pages' fuel args v
    end
  else
    emit (LogComplete (total_leads_merged v)) ;;;
    ret v.

Definition main (pages fuel : nat) (args : Args) : M S Vars :=
  walk pages fuel args initial_vars.

End Script.

(** ** What a run shows *)

(** The leads that a sequence of events fetched from the store. *)
Definition fetched (evs : list Event) : list Lead :=
  flat_map (λ e, match e with GetLeads _ _ resp => data resp | _ => [] end)
           evs.

(** The merge requests among a sequence of events, as (source, destination)
    pairs in the order issued. *)
Definition merge_requests (evs : list Event) : list (unicode * unicode) :=
  flat_map (λ e, match e with
                 | PostMerge source destination _ => [(source, destination)]
                 | _ => []
                 end) evs.

(** The duplicate groups reported at line 199: the lead visited, which is
    the one passed to [merge_lead] as destination, and its duplicates. *)
Definition duplicate_groups (evs : list Event) : list (Lead * list Lead) :=
  flat_map (λ e, match e with
                 | LogDuplicates lead duplicates => [(lead, duplicates)]
                 | _ => []
                 end) evs.

(** The number of leads in a list of groups, every destination and every
    duplicate counted. *)
Fixpoint leads_in_groups (groups : list (Lead * list Lead)) : Z :=
  match groups with
  | [] => 0
  | (_, duplicates) :: groups' =>
    (Z.of_nat (length duplicates) + 1) + leads_in_groups groups'
  end.

(** The offsets at which the walker fetched its pages. *)
Definition page_skips (evs : list Event) : list Z :=
  flat_map (λ e, match e with
                 | GetLeads query skip _ =>
                   if bool_decide (query = str "sort:date_created")
                   then [skip] else []
                 | _ => []
                 end) evs.

Section Observations.
Context {udb : UnicodeDB} {S : Type} {api : RemoteStore S}.

(** The requests of one search and their answers: the query re-issued
    with a growing [_skip] until the store says there is no more. *)
Fixpoint search_requests (fuel : nat) (s : S) (query : bytestr) (skip : Z)
  : option (list Event) :=
  match fuel with
  | O => None
  | Datatypes.S fuel' =>
    let resp := api_get s query skip in
    if has_more resp then
      cons (GetLeads query skip resp)
        <$> search_requests fuel' s query
              (skip + Z.of_nat (length (data resp)))
    else Some [GetLeads query skip resp]
  end.

(** The requests of one call of the finder: none when the lead has nothing
    to search for (line 98). [None]: the store goes on saying that there
    is more, beyond [fuel] pages. *)
Definition finder_requests (fuel : nat) (s : S) (lead : Lead)
    (f : comparator) : option (list Event) :=
  match search_values lead f with
  | [] => Some []
  | vals => search_requests fuel s (build_query f vals) 0
  end.

(** What a candidate must satisfy to be kept (lines 119-137). *)
Definition kept (f : comparator) (lead l : Lead) : bool :=
  negb (bool_decide (lead_id l = lead_id lead)) && is_exact_match f lead l.

(** The values of a lead's emails (or phones), over all its contacts. *)
Definition elem_values (f : comparator) (l : Lead) : list unicode :=
  flat_map (elems f) (contacts l).




End Observations.

(** The [_skip] of the requests among a sequence of events, the number of
    leads in their answers, and the [has_more] of their answers. *)
Definition request_skips (evs : list Event) : list Z :=
  flat_map (λ e, match e with GetLeads _ skip _ => [skip] | _ => [] end) evs.

Definition answer_sizes (evs : list Event) : list Z :=
  flat_map (λ e, match e with
                 | GetLeads _ _ resp => [Z.of_nat (length (data resp))]
                 | _ => []
                 end) evs.

Definition answer_flags (evs : list Event) : list bool :=
  flat_map (λ e, match e with GetLeads _ _ resp => [has_more resp] | _ => [] end)
           evs.

(** [a], [a + x0], [a + x0 + x1], ...: one sum for each element of the
    list, the element itself not yet added. *)
Fixpoint running_sums (a : Z) (l : list Z) : list Z :=
  match l with
  | [] => []
  | x :: l' => a :: running_sums (a + x) l'
  end.

(** The merge requests that a list of groups calls for: for every group,
    in order, every duplicate into the group's destination. *)
Definition group_requests (groups : list (Lead * list Lead))
  : list (unicode * unicode) :=
  flat_map (λ g, map (λ source_lead, (lead_id source_lead, lead_id (fst g)))
                     (snd g))
           groups.

(** The IDs of the duplicates of a list of groups. *)
Definition group_sources (groups : list (Lead * list Lead)) : list unicode :=
  flat_map (λ g, map lead_id (snd g)) groups.

(** No destination of a group is in [seen] or among the duplicates of an
    earlier group. *)
Fixpoint destinations_fresh (seen : gset unicode)
    (groups : list (Lead * list Lead)) : Prop :=
  match groups with
  | [] => True
  | g :: groups' =>
    (lead_id (fst g) ∉ seen)
    ∧ destinations_fresh (seen ∪ list_to_set (map lead_id (snd g))) groups'
  end.

(** The totals reported when the run is over (line 218). *)
Definition completions (evs : list Event) : list Z :=
  flat_map (λ e, match e with LogComplete total => [total] | _ => [] end) evs.

(** A group as reported: it has duplicates, and none of them has the ID
    of the destination. *)
Definition group_sound (g : Lead * list Lead) : Prop :=
  snd g ≠ [] ∧ Forall (λ l, lead_id l ≠ lead_id (fst g)) (snd g).

(** What the leads processed since the variables were [v] have done, [evs]
    being the events since then and [v'] the variables now. *)
Definition page_effects (args : Args) (v v' : Vars) (evs : list Event) : Prop :=
  has_more_pages v' = has_more_pages v
  ∧ offset v' = offset v
  ∧ total_leads_merged v'
    = total_leads_merged v + Z.of_nat (length (duplicate_groups evs))
  ∧ leads_merged_this_page v'
    = leads_merged_this_page v + leads_in_groups (duplicate_groups evs)
  ∧ duplicates_this_page v'
    = duplicates_this_page v
        ∪ list_to_set (group_sources (duplicate_groups evs))
  ∧ destinations_fresh (duplicates_this_page v) (duplicate_groups evs)
  ∧ Forall group_sound (duplicate_groups evs)
  ∧ merge_requests evs
    = (if confirmed args then group_requests (duplicate_groups evs) else [])
  ∧ completions evs = []
  ∧ page_skips evs = [].

(** *** The progress bar *)

(** What the script reads and writes of the progress bar. *)
Record ProgressBar := { currval : Z; maxval : Z }.

(** [pbar.update(value)]: the bar refuses a value outside [0..maxval]
    ([ValueError]). *)
Definition pbar_update (value : Z) (pbar : ProgressBar) : option ProgressBar :=
  if (0 <=? value) && (value <=? maxval pbar)
  then Some {| currval := value; maxval := maxval pbar |}
  else None.

(** Lines 182-183: [ProgressBar(..., maxval=total_leads).start()], which
    refuses a negative [maxval] and updates to 0, then
    [pbar.update(offset)]. *)
Definition pbar_start (total_leads offset : Z) : option ProgressBar :=
  if total_leads <? 0 then None
  else
    match pbar_update 0 {| currval := 0; maxval := total_leads |} with
    | Some pbar => pbar_update offset pbar
    | None => None
    end.

(** Lines 208-210, once for every lead of a page, skipped or not. *)
Definition pbar_step (pbar : ProgressBar) : option ProgressBar :=
  let pbar :=
    if Z.gtb (currval pbar + 1) (maxval pbar)
    then {| currval := currval pbar; maxval := currval pbar + 1 |}
    else pbar in
  pbar_update (currval pbar + 1) pbar.

(** The bar after [n] more leads. *)
Fixpoint pbar_steps (n : nat) (pbar : ProgressBar) : option ProgressBar :=
  match n with
  | O => Some pbar
  | Datatypes.S n' =>
    match pbar_step pbar with
    | Some pbar' => pbar_steps n' pbar'
    | None => None
    end
  end.

(** ** A store to run the script against *)

(** The leads in creation order. A search hands out every lead of the store
    as a candidate, [page_limit] at a time (the script keeps the exact
    matches itself); a merge moves the contacts and opportunities of the
    source to the destination and removes the source. *)
Module ListStore.

Definition page_limit : nat := 100.

Definition get_page (limit : nat) (s : list Lead) (skip : Z) : Response :=
  let rest := drop (Z.to_nat skip) s in
  {| data := take limit rest;
     total_results := Z.of_nat (length s);
     has_more := bool_decide (limit < length rest)%nat |}.

Definition absorb (source : option Lead) (d : Lead) : Lead :=
  match source with
  | None => d
  | Some s =>
    {| lead_id := lead_id d; display_name := display_name d;
       name := name d; status_label := status_label d;
       contacts := contacts d ++ contacts s;
       opportunities := opportunities d ++ opportunities s;
       date_created := date_created d |}
  end.

Definition merge (s : list Lead) (source destination : unicode)
  : json * list Lead :=
  let src := List.find (λ l, bool_decide (lead_id l = source)) s in
  (str "{}",
   map (λ l, if bool_decide (lead_id l = destination) then absorb src l
             else l)
       (List.filter (λ l, negb (bool_decide (lead_id l = source))) s)).

Definition paged (limit : nat) : RemoteStore (list Lead) :=
  {| api_get s _ skip := get_page limit s skip;
     api_post_merge := merge |}.

Definition remote : RemoteStore (list Lead) := paged page_limit.

End ListStore.


(** ** Scenarios *)

Module Scenario.

Definition dry_run (f : comparator) : Args :=
  {| field := f; confirmed := false |}.
Definition for_real (f : comparator) : Args :=
  {| field := f; confirmed := true |}.

Definition contact_with (addresses : list string) : Contact :=
  {| contact_name := str "Someone";
     emails := map (λ a, {| email := str a; email_type := str "office" |})
                   addresses;
     phones := [] |}.

Definition mk_lead (i n : string) (cs : list Contact)
    (ops : list unicode) (t : Z) : Lead :=
  {| lead_id := str i; display_name := str n; name := str n;
     status_label := str "Potential"; contacts := cs;
     opportunities := ops; date_created := t |}.

(** Two leads of one company; the later one has an opportunity. *)
Definition leadA : Lead := mk_lead "lead_A" "Acme Inc" [] [] 1.
Definition leadB : Lead := mk_lead "lead_B" "ACME INC " [] [str "oppo_1"] 2.
(** Two leads that share one email address. *)
Definition leadC : Lead :=
  mk_lead "lead_C" "Cesar Ltd" [contact_with ["a@x.com"]] [] 3.
Definition leadD : Lead :=
  mk_lead "lead_D" "Delta Ltd"
          [contact_with ["b@x.com"]; contact_with ["a@x.com"]] [] 4.
(** A lead on its own. *)
Definition leadE : Lead :=
  mk_lead "lead_E" "Echo Ltd" [contact_with ["e@y.org"]] [] 5.

Definition leads : list Lead := [leadA; leadB; leadC; leadD; leadE].

Definition world : World (list Lead) := MkWorld leads [].

(** After the search for the duplicates of [lead]. *)
Definition world_after_search (lead : Lead) (f : comparator)
  : World (list Lead) :=
  MkWorld leads
    [GetLeads (build_query f (search_values lead f)) 0
              (ListStore.get_page ListStore.page_limit leads 0)].

(** The subsumed set once [leadB] was found as a duplicate of [leadA]. *)
Definition vars_after_A : Vars :=
  add_duplicates [leadB] (start_page initial_vars).

(** A store of numbered leads, of which the first three are one
    company. *)
Definition digits2 (i : nat) : unicode :=
  [48 + Z.of_nat (Nat.div i 10); 48 + Z.of_nat (Nat.modulo i 10)].

Definition numbered (i : nat) : Lead :=
  {| lead_id := str "lead_" ++ digits2 i;
     display_name := str "#" ++ digits2 i;
     name := if (i <? 3)%nat then str "Acme Inc"
             else str "Company " ++ digits2 i;
     status_label := [];
     contacts := [];
     opportunities := [];
     date_created := Z.of_nat i |}.

Definition numbered_leads (n : nat) : list Lead := map numbered (seq 0 n).

(** The store that hands the leads out 50 at a time. *)
Definition pages_of_50 : RemoteStore (list Lead) := ListStore.paged 50.

(** Sixty leads: a page of 50 and a page of 10. *)
Definition world60 : World (list Lead) := MkWorld (numbered_leads 60) [].

(** Fifty leads: one page. *)
Definition world50 : World (list Lead) := MkWorld (numbered_leads 50) [].

(** The whole walk over the sixty leads, merging by company. *)
Definition walk60 : option (Vars * World (list Lead)) :=
  @main ascii_db _ pages_of_50 3 3 (for_real Company) world60.

(** The walk over [leadA] and [leadB] alone, merging by company. *)
Definition walkAB : option (Vars * World (list Lead)) :=
  @main ascii_db _ ListStore.remote 5 5 (for_real Company)
        (MkWorld [leadA; leadB] []).

(** An email address that is not ASCII. *)
Definition accented_email : unicode :=
  str "ren" ++ [0xE9] ++ str "@x.com".

(** One value that reads as two: [a@x.com", "b@x.com]. *)
Definition two_in_one : unicode :=
  str "a@x.com" ++ [dquote] ++ str ", " ++ [dquote] ++ str "b@x.com".

(** The store that hands the leads out 2 at a time. *)
Definition pages_of_2 : RemoteStore (list Lead) := ListStore.paged 2.

(** Two leads without a company name. *)
Definition blankA : Lead := mk_lead "lead_X" "" [] [] 6.
Definition blankB : Lead := mk_lead "lead_Y" "  " [] [] 7.

(** A store without leads. *)
Definition empty_world : World (list Lead) := MkWorld [] [].

End Scenario.

(** * Properties *)

(** ** UTF-8 and the values in a query *)

Ltac div_lia := Z.to_euclidean_division_equations; lia.

Ltac decide_ltb :=
  repeat match goal with
  | |- context [?a <? ?b] => destruct (Z.ltb_spec a b); try lia
  | |- context [?a <=? ?b] => destruct (Z.leb_spec a b); try lia
  end.

(** A membership that evaluation settles. *)
Ltac by_evaluation := apply (bool_decide_unpack _); vm_compute; exact I.

Lemma lor_small hi n :
  forallb (λ x, Z.lor hi x =? hi + x) (seqZ 0 n) = true →
  ∀ x, 0 ≤ x < n → Z.lor hi x = hi + x.
Proof.
  intros Hall x Hx. rewrite forallb_forall in Hall.
  apply Z.eqb_eq, Hall, list_elem_of_In, elem_of_seqZ. lia.
Qed.

Lemma land_63 c : Z.land c 0x3F = c mod 64.
Proof. change 0x3F with (Z.ones 6). by rewrite Z.land_ones. Qed.

(** The octets of a code point, by division. *)
Lemma utf8_encode_char_arith c :
  0 ≤ c < 0x110000 →
  utf8_encode_char c =
    if c <? 0x80 then [c]
    else if c <? 0x800 then [0xC0 + c / 64; 0x80 + c mod 64]
    else if c <? 0x10000 then
      [0xE0 + c / 4096; 0x80 + (c / 64) mod 64; 0x80 + c mod 64]
    else [0xF0 + c / 262144; 0x80 + (c / 4096) mod 64;
          0x80 + (c / 64) mod 64; 0x80 + c mod 64].
Proof.
  intros Hc. unfold utf8_encode_char.
  rewrite !land_63, !Z.shiftr_div_pow2 by lia.
  change (2 ^ 6) with 64. change (2 ^ 12) with 4096.
  change (2 ^ 18) with 262144.
  assert (L80 := lor_small 0x80 64 eq_refl).
  assert (LC0 := lor_small 0xC0 32 eq_refl).
  assert (LE0 := lor_small 0xE0 16 eq_refl).
  assert (LF0 := lor_small 0xF0 8 eq_refl).
  repeat case_match; rewrite ?Z.ltb_lt, ?Z.ltb_ge in *;
    rewrite ?L80, ?LC0, ?LE0, ?LF0; try done;
    try (apply Z.mod_pos_bound; lia);
    (split; [apply Z.div_pos; lia | apply Z.div_lt_upper_bound; lia]).
Qed.

Lemma utf8_decode_1 b0 t :
  0 ≤ b0 < 0x80 → utf8_decode (b0 :: t) = cons b0 <$> utf8_decode t.
Proof. intros. simpl. by decide_ltb. Qed.

Lemma utf8_decode_2 b0 b1 t :
  0xC0 ≤ b0 < 0xE0 → 0x80 ≤ b1 < 0xC0 →
  utf8_decode (b0 :: b1 :: t)
  = cons ((b0 - 0xC0) * 64 + (b1 - 0x80)) <$> utf8_decode t.
Proof. intros. simpl. unfold is_cont. by decide_ltb. Qed.

Lemma utf8_decode_3 b0 b1 b2 t :
  0xE0 ≤ b0 < 0xF0 → 0x80 ≤ b1 < 0xC0 → 0x80 ≤ b2 < 0xC0 →
  utf8_decode (b0 :: b1 :: b2 :: t)
  = cons ((b0 - 0xE0) * 4096 + (b1 - 0x80) * 64 + (b2 - 0x80))
      <$> utf8_decode t.
Proof. intros. simpl. unfold is_cont. by decide_ltb. Qed.

Lemma utf8_decode_4 b0 b1 b2 b3 t :
  0xF0 ≤ b0 → 0x80 ≤ b1 < 0xC0 → 0x80 ≤ b2 < 0xC0 → 0x80 ≤ b3 < 0xC0 →
  utf8_decode (b0 :: b1 :: b2 :: b3 :: t)
  = cons ((b0 - 0xF0) * 262144 + (b1 - 0x80) * 4096
          + (b2 - 0x80) * 64 + (b3 - 0x80)) <$> utf8_decode t.
Proof. intros. simpl. unfold is_cont. by decide_ltb. Qed.

Lemma utf8_decode_encode_char c rest :
  0 ≤ c < 0x110000 →
  utf8_decode (utf8_encode_char c ++ rest) = cons c <$> utf8_decode rest.
Proof.
  intros Hc. rewrite utf8_encode_char_arith by done.
  repeat case_match; rewrite ?Z.ltb_lt, ?Z.ltb_ge in *; cbn [app].
  - by rewrite utf8_decode_1 by lia.
  - rewrite utf8_decode_2 by div_lia. do 2 f_equal. div_lia.
  - rewrite utf8_decode_3 by div_lia. do 2 f_equal. div_lia.
  - rewrite utf8_decode_4 by div_lia. do 2 f_equal. div_lia.
Qed.

Lemma utf8_encode_char_no_quote c :
  0 ≤ c < 0x110000 → c ≠ dquote → dquote ∉ utf8_encode_char c.
Proof.
  intros Hc Hq. rewrite utf8_encode_char_arith by done. unfold dquote in *.
  repeat case_match; rewrite ?Z.ltb_lt, ?Z.ltb_ge in *;
    rewrite ?elem_of_cons, elem_of_nil; div_lia.
Qed.

Lemma utf8_encode_cons c (s : unicode) :
  utf8_encode (c :: s) = utf8_encode_char c ++ utf8_encode s.
Proof. done. Qed.

(** Decoding undoes encoding. *)
Lemma utf8_decode_encode (s : unicode) rest :
  Forall (λ c, 0 ≤ c < 0x110000) s →
  utf8_decode (utf8_encode s ++ rest) = app s <$> utf8_decode rest.
Proof.
  induction 1 as [|c s Hc _ IH].
  - change (utf8_encode []) with (@nil Z). simpl.
    by destruct (utf8_decode rest).
  - rewrite utf8_encode_cons, <- app_assoc, utf8_decode_encode_char by done.
    rewrite IH. by destruct (utf8_decode rest).
Qed.

Lemma utf8_encode_no_quote (s : unicode) :
  Forall (λ c, 0 ≤ c < 0x110000 ∧ c ≠ dquote) s → dquote ∉ utf8_encode s.
Proof.
  induction 1 as [|c s [Hc Hq] _ IH].
  - apply not_elem_of_nil.
  - rewrite utf8_encode_cons, elem_of_app.
    intros [Hin|Hin]; [|done]. by apply utf8_encode_char_no_quote in Hin.
Qed.

Lemma join_cons_cons sep (p p' : bytestr) ps :
  join sep (p :: p' :: ps) = p ++ sep ++ join sep (p' :: ps).
Proof. done. Qed.

Lemma join_flat sep (p : bytestr) ps :
  join sep (p :: ps) = p ++ flat_map (λ x, sep ++ x) ps.
Proof.
  revert p. induction ps as [|p' ps IH]; intros p.
  - simpl. by rewrite app_nil_r.
  - rewrite join_cons_cons, IH. simpl. by rewrite <- !app_assoc.
Qed.

Lemma flat_map_shift sep (ps : list bytestr) :
  flat_map (λ p, sep ++ p) ps ++ sep = sep ++ flat_map (λ p, p ++ sep) ps.
Proof.
  induction ps as [|p ps IH]; simpl.
  - by rewrite app_nil_r.
  - rewrite <- !app_assoc. by rewrite IH.
Qed.

Lemma join_middle sep (l1 : list bytestr) x l2 :
  join sep (l1 ++ x :: l2)
  = flat_map (λ p, p ++ sep) l1 ++ x ++ flat_map (λ p, sep ++ p) l2.
Proof.
  destruct l1 as [|a l1]; [apply join_flat|].
  simpl app at 1. rewrite join_flat, flat_map_app. simpl.
  rewrite <- !app_assoc. f_equal.
  rewrite (app_assoc (flat_map _ l1) sep), flat_map_shift.
  by rewrite <- !app_assoc.
Qed.

Lemma flat_map_fmap {A B C} (g : B → list C) (h : A → B) (l : list A) :
  flat_map g (map h l) = flat_map (λ x, g (h x)) l.
Proof. induction l as [|x l IH]; simpl; by rewrite ?IH. Qed.

(** The query, taken apart at one of its values. *)
Lemma build_query_at f (vals : list unicode) i v :
  vals !! i = Some v →
  build_query f vals
  = (field_name f ++ str " in ("
       ++ flat_map (λ u, quote (utf8_encode u) ++ str ", ") (take i vals))
    ++ quote (utf8_encode v)
    ++ (flat_map (λ u, str ", " ++ quote (utf8_encode u)) (drop (Datatypes.S i) vals)
          ++ str ") sort:date_created").
Proof.
  intros Hi. unfold build_query.
  rewrite <- (take_drop_middle vals i v Hi) at 1.
  rewrite map_app, map_cons, join_middle, !flat_map_fmap.
  by rewrite <- !app_assoc.
Qed.

Lemma until_quote_inj (w w' r r' : bytestr) :
  dquote ∉ w → dquote ∉ w' →
  w ++ dquote :: r = w' ++ dquote :: r' → w = w' ∧ r = r'.
Proof.
  revert w'. induction w as [|c w IH]; intros [|c' w'] Hw Hw'; simpl.
  - by intros [= ->].
  - intros [= <- _]. by apply not_elem_of_cons in Hw' as [? _].
  - intros [= -> _]. by apply not_elem_of_cons in Hw as [? _].
  - intros [= -> Heq].
    apply not_elem_of_cons in Hw as [_ Hw].
    apply not_elem_of_cons in Hw' as [_ Hw'].
    destruct (IH w' Hw Hw' Heq) as [-> ->]. done.
Qed.

Lemma quoted_tail_inj (vs vs' : list bytestr) :
  Forall (λ v, dquote ∉ v) vs → Forall (λ v, dquote ∉ v) vs' →
  flat_map (λ v, str ", " ++ quote v) vs
  = flat_map (λ v, str ", " ++ quote v) vs' →
  vs = vs'.
Proof.
  intros Hvs. revert vs'.
  induction Hvs as [|v vs Hv _ IH]; intros vs' Hvs'; destruct Hvs' as [|v' vs' Hv' Hvs'];
    [done|done|done|].
  cbn [flat_map]. rewrite <- !app_assoc. intros Heq.
  apply app_inv_head in Heq. unfold quote in Heq. simpl in Heq.
  injection Heq as Heq. rewrite <- !app_assoc in Heq. simpl in Heq.
  apply until_quote_inj in Heq as [-> Heq]; [|done..].
  f_equal. by apply IH.
Qed.

Lemma join_quote_inj (vs vs' : list bytestr) :
  Forall (λ v, dquote ∉ v) vs → Forall (λ v, dquote ∉ v) vs' →
  join (str ", ") (map quote vs) = join (str ", ") (map quote vs') →
  vs = vs'.
Proof.
  intros Hvs Hvs'.
  destruct Hvs as [|v vs Hv Hvs], Hvs' as [|v' vs' Hv' Hvs']; [done|..].
  - rewrite map_cons, join_flat. done.
  - rewrite map_cons, join_flat. done.
  - rewrite !map_cons, !join_flat, !flat_map_fmap. unfold quote at 1 3.
    simpl. intros [= Heq]. rewrite <- !app_assoc in Heq. simpl in Heq.
    apply until_quote_inj in Heq as [-> Heq]; [|done..].
    f_equal. by apply quoted_tail_inj.
Qed.

Lemma utf8_encode_inj (v v' : unicode) :
  Forall (λ c, 0 ≤ c < 0x110000) v → Forall (λ c, 0 ≤ c < 0x110000) v' →
  utf8_encode v = utf8_encode v' → v = v'.
Proof.
  intros Hv Hv' Heq.
  pose proof (utf8_decode_encode v [] Hv) as H1.
  pose proof (utf8_decode_encode v' [] Hv') as H2.
  rewrite Heq, H2 in H1. simpl in H1. rewrite !app_nil_r in H1.
  by injection H1.
Qed.

Lemma build_query_inj f (vals vals' : list unicode) :
  Forall (Forall (λ c, 0 ≤ c < 0x110000 ∧ c ≠ dquote)) vals →
  Forall (Forall (λ c, 0 ≤ c < 0x110000 ∧ c ≠ dquote)) vals' →
  build_query f vals' = build_query f vals → vals' = vals.
Proof.
  intros Hvals Hvals'. unfold build_query. intros Heq.
  do 2 apply app_inv_head in Heq. apply app_inv_tail in Heq.
  rewrite <- !(map_map utf8_encode quote) in Heq.
  apply join_quote_inj in Heq.
  - revert vals Hvals Heq.
    induction Hvals' as [|v' vals' Hv' _ IH]; intros vals Hvals;
      destruct Hvals as [|v vals Hv Hvals]; simpl; [done|done|done|].
    intros [= Hhd Htl]. f_equal; [|by apply IH].
    apply utf8_encode_inj; [| |done];
      (eapply Forall_impl; [eassumption|]; naive_solver).
  - rewrite Forall_map. eapply Forall_impl; [exact Hvals'|].
    intros v Hv. by apply utf8_encode_no_quote.
  - rewrite Forall_map. eapply Forall_impl; [exact Hvals|].
    intros v Hv. by apply utf8_encode_no_quote.
Qed.

(** C8, as amended. For every search value [v] of a query that contains
    no double quote (non-ASCII characters allowed), whatever the other
    values are, the query carries the UTF-8 encoding of [v] between the
    double quotes put around it, at the place of [v] among the values; the
    encoding has no double quote in it and denotes exactly the original
    string. When no value of the query contains a double quote, the query
    moreover determines its values: no other list of such values gives the
    same query. *)
Theorem quote_free_values_embedded f (vals : list unicode) i v :
  vals !! i = Some v →
  Forall (λ c, 0 ≤ c < 0x110000 ∧ c ≠ dquote) v →
  (build_query f vals
   = (field_name f ++ str " in ("
        ++ flat_map (λ u, quote (utf8_encode u) ++ str ", ") (take i vals))
     ++ [dquote] ++ utf8_encode v ++ [dquote]
     ++ (flat_map (λ u, str ", " ++ quote (utf8_encode u))
                  (drop (Datatypes.S i) vals)
           ++ str ") sort:date_created")
   ∧ (dquote ∉ utf8_encode v)
   ∧ utf8_decode (utf8_encode v) = Some v)
  ∧ (Forall (Forall (λ c, 0 ≤ c < 0x110000 ∧ c ≠ dquote)) vals →
     ∀ vals',
       Forall (Forall (λ c, 0 ≤ c < 0x110000 ∧ c ≠ dquote)) vals' →
       build_query f vals' = build_query f vals → vals' = vals).
Proof.
  intros Hi Hv.
  split; [|intros Hvals vals' Hvals'; by apply build_query_inj].
  split_and!.
  - rewrite (build_query_at f vals i v Hi). unfold quote.
    by rewrite <- !app_assoc.
  - by apply utf8_encode_no_quote.
  - rewrite <- (app_nil_r (utf8_encode v)), utf8_decode_encode.
    + simpl. by rewrite app_nil_r.
    + eapply Forall_impl; [exact Hv|]. naive_solver.
Qed.

(** ** The duplicate finder *)

Lemma fetched_app evs1 evs2 :
  fetched (evs1 ++ evs2) = fetched evs1 ++ fetched evs2.
Proof. unfold fetched. by rewrite flat_map_app. Qed.

Lemma merge_requests_app evs1 evs2 :
  merge_requests (evs1 ++ evs2) = merge_requests evs1 ++ merge_requests evs2.
Proof. unfold merge_requests. by rewrite flat_map_app. Qed.

Lemma duplicate_groups_app evs1 evs2 :
  duplicate_groups (evs1 ++ evs2)
  = duplicate_groups evs1 ++ duplicate_groups evs2.
Proof. unfold duplicate_groups. by rewrite flat_map_app. Qed.

Lemma leads_in_groups_app g1 g2 :
  leads_in_groups (g1 ++ g2) = leads_in_groups g1 + leads_in_groups g2.
Proof. induction g1 as [|[? ?] g1 IH]; simpl; lia. Qed.

(** Fetching is neither merging nor reporting. *)
Lemma gets_only (P : Event → Prop) evs :
  Forall P evs → (∀ e, P e → ∃ q k resp, e = GetLeads q k resp) →
  merge_requests evs = [] ∧ duplicate_groups evs = [].
Proof.
  intros Hall HP. induction Hall as [|e evs He _ [IH1 IH2]]; [done|].
  destruct (HP e He) as (q & k & resp & ->). simpl. by rewrite IH1, IH2.
Qed.

Section Finder.
Context {udb : UnicodeDB} {S : Type} {api : RemoteStore S}.

(** The loop over a page of candidates is a filter. *)
Lemma scan_filter f lead leads duplicates :
  scan f lead leads duplicates
  = duplicates ++ List.filter (kept f lead) leads.
Proof.
  revert duplicates.
  induction leads as [|l leads IH]; intros duplicates; simpl.
  - by rewrite app_nil_r.
  - unfold kept at 1. case_bool_decide; simpl; [apply IH|].
    destruct (is_exact_match f lead l); rewrite IH; [|done].
    by rewrite <- app_assoc.
Qed.

Lemma search_loop_run fuel f lead query skip duplicates (w : World S) :
  search_loop fuel f lead query skip duplicates w
  = (λ evs, (duplicates ++ List.filter (kept f lead) (fetched evs),
             MkWorld (store w) (trace w ++ evs)))
      <$> search_requests fuel (store w) query skip.
Proof.
  revert skip duplicates w.
  induction fuel as [|fuel IH]; intros skip duplicates w; [done|].
  simpl. unfold bind, get. simpl.
  destruct (has_more (api_get (store w) query skip)) eqn:Hmore.
  - rewrite IH. simpl.
    destruct (search_requests fuel (store w) query _) as [evs|]; [|done].
    simpl. rewrite scan_filter, List.filter_app.
    by rewrite <- !app_assoc.
  - unfold ret. simpl.
    by rewrite scan_filter, !app_nil_r.
Qed.

Lemma search_requests_all_get fuel (s : S) query skip evs :
  search_requests fuel s query skip = Some evs →
  Forall (λ e, ∃ k resp, e = GetLeads query k resp) evs.
Proof.
  revert skip evs.
  induction fuel as [|fuel IH]; intros skip evs; [done|]. simpl.
  destruct (has_more _).
  - destruct (search_requests fuel s query _) as [evs'|] eqn:E; [|done].
    simpl. intros [= <-]. constructor; eauto.
  - intros [= <-]. repeat constructor. eauto.
Qed.

(** The finder returns when the store ends its pagination within the
    pages allowed, and only then; it only reads; it returns, in the order
    fetched, the candidates that are [kept]. *)
Lemma find_duplicates_spec fuel lead f (w : World S) :
  find_duplicates_for_lead fuel lead f w
  = (λ evs, (List.filter (kept f lead) (fetched evs),
             MkWorld (store w) (trace w ++ evs)))
      <$> finder_requests fuel (store w) lead f.
Proof.
  unfold find_duplicates_for_lead, finder_requests.
  destruct (search_values lead f) as [|v vals].
  - destruct w. simpl. by rewrite app_nil_r.
  - by rewrite search_loop_run.
Qed.

Lemma finder_requests_all_get fuel (s : S) lead f evs :
  finder_requests fuel s lead f = Some evs →
  Forall (λ e, ∃ k resp,
            e = GetLeads (build_query f (search_values lead f)) k resp) evs.
Proof.
  unfold finder_requests.
  destruct (search_values lead f) as [|v vals] eqn:Hvals.
  - by intros [= <-].
  - apply search_requests_all_get.
Qed.

Lemma find_duplicates_run fuel lead f (w : World S) duplicates w' :
  find_duplicates_for_lead fuel lead f w = Some (duplicates, w') →
  ∃ evs,
    store w' = store w ∧ trace w' = trace w ++ evs
    ∧ Forall (λ e, ∃ k resp,
                e = GetLeads (build_query f (search_values lead f)) k resp)
             evs
    ∧ duplicates = List.filter (kept f lead) (fetched evs).
Proof.
  rewrite find_duplicates_spec.
  destruct (finder_requests _ _ _ _) as [evs|] eqn:E; [|done].
  simpl. intros [= <- <-]. exists evs. simpl.
  eauto using finder_requests_all_get.
Qed.

(** The set built by the two nested loops holds the values of all the
    entries of all the contacts. *)
Lemma elem_of_elem_set f l (x : unicode) :
  x ∈ elem_set f l ↔ x ∈ elem_values f l.
Proof.
  unfold elem_set, elem_values.
  assert (G1 : ∀ (es : list unicode) (acc : gset unicode),
    x ∈ foldl (λ acc e, acc ∪ {[ e ]}) acc es ↔ x ∈ acc ∨ x ∈ es).
  { induction es as [|e es IH]; intros acc; simpl.
    - set_solver.
    - rewrite IH. set_solver. }
  assert (G : ∀ (cs : list Contact) (acc : gset unicode),
    x ∈ foldl (λ acc contact,
                 foldl (λ acc e, acc ∪ {[ e ]}) acc (elems f contact))
              acc cs
    ↔ x ∈ acc ∨ x ∈ flat_map (elems f) cs).
  { induction cs as [|c cs IH]; intros acc; simpl.
    - set_solver.
    - rewrite IH, G1, elem_of_app. tauto. }
  rewrite G. set_solver.
Qed.

(** The intersection is not empty when some value is in both sets. *)
Lemma shared_element f (lead l : Lead) :
  elem_set f lead ∩ elem_set f l ≠ ∅
  ↔ ∃ e : unicode, e ∈ elem_values f lead ∧ e ∈ elem_values f l.
Proof.
  split.
  - intros Hne. apply set_choose_L in Hne as [e He].
    exists e. rewrite <- !elem_of_elem_set. set_solver.
  - intros (e & H1 & H2). rewrite <- elem_of_elem_set in H1, H2.
    set_solver.
Qed.

Lemma elem_of_kept_fetched f lead evs (l : Lead) :
  l ∈ List.filter (kept f lead) (fetched evs)
  ↔ l ∈ fetched evs ∧ lead_id l ≠ lead_id lead
    ∧ is_exact_match f lead l = true.
Proof.
  rewrite !list_elem_of_In, filter_In. unfold kept.
  rewrite andb_true_iff, negb_true_iff, bool_decide_eq_false. tauto.
Qed.

(** C4. Comparison by company: the finder returns when the store ends
    its answer to the query, and a lead that the store returned is among
    the duplicates returned if and only if its ID differs from the input
    lead's and its company name, trimmed and lower-cased, equals the input
    lead's, trimmed and lower-cased. *)
Theorem company_duplicates_exact fuel lead (w : World S) :
  match search_requests fuel (store w)
          (build_query Company [name lead]) 0 with
  | None => find_duplicates_for_lead fuel lead Company w = None
  | Some evs =>
    ∃ duplicates,
      find_duplicates_for_lead fuel lead Company w
        = Some (duplicates, MkWorld (store w) (trace w ++ evs))
      ∧ ∀ l : Lead,
          l ∈ duplicates
          ↔ l ∈ fetched evs
            ∧ lead_id l ≠ lead_id lead
            ∧ lower (strip (name l)) = lower (strip (name lead))
  end.
Proof.
  rewrite find_duplicates_spec. unfold finder_requests. simpl.
  destruct (search_requests _ _ _ _) as [evs|]; [|done].
  eexists. split; [done|].
  intros l. rewrite elem_of_kept_fetched. simpl.
  rewrite bool_decide_eq_true. naive_solver.
Qed.

(** C5. Comparison by email or by phone: the finder returns when the store
    ends its answer to the query (at once, without a request, when the
    input lead has no such value), and a candidate that the store returned
    is among the duplicates returned if and only if its ID differs from
    the input lead's and some value occurs both among the candidate's
    emails (phones) and among the input lead's, over all their contacts:
    one shared value is enough. *)
Theorem contact_duplicates_any_shared fuel f lead (w : World S) :
  f ≠ Company →
  match finder_requests fuel (store w) lead f with
  | None => find_duplicates_for_lead fuel lead f w = None
  | Some evs =>
    Forall (λ e, ∃ k resp,
              e = GetLeads (build_query f (elem_values f lead)) k resp) evs
    ∧ ∃ duplicates,
        find_duplicates_for_lead fuel lead f w
          = Some (duplicates, MkWorld (store w) (trace w ++ evs))
        ∧ ∀ l : Lead,
            l ∈ duplicates
            ↔ l ∈ fetched evs
              ∧ lead_id l ≠ lead_id lead
              ∧ ∃ e : unicode, e ∈ elem_values f l ∧ e ∈ elem_values f lead
  end.
Proof.
  intros Hf. rewrite find_duplicates_spec.
  destruct (finder_requests _ _ _ _) as [evs|] eqn:E; [|done].
  split.
  { apply finder_requests_all_get in E. by destruct f. }
  eexists. split; [done|].
  intros l. rewrite elem_of_kept_fetched.
  assert (is_exact_match f lead l = true
          ↔ ∃ e : unicode, e ∈ elem_values f l ∧ e ∈ elem_values f lead)
    as ->; [|done].
  destruct f; [done|..]; simpl;
    rewrite bool_decide_eq_true, shared_element; naive_solver.
Qed.



End Finder.

(** ** The merge executor *)

Section Executor.
Context {udb : UnicodeDB} {S : Type} {api : RemoteStore S}.

(** The requests that the loop of [merge_lead] issues, one after the
    other; the loop always comes to its end. *)
Lemma merge_each_run destination_lead duplicates (w : World S) :
  ∃ w' evs,
    merge_each destination_lead duplicates w = Some ((), w')
    ∧ trace w' = trace w ++ evs
    ∧ merge_requests evs
      = map (λ source_lead,
               (lead_id source_lead, lead_id destination_lead)) duplicates
    ∧ duplicate_groups evs = []
    ∧ fetched evs = [].
Proof.
  revert w. induction duplicates as [|d ds IH]; intros w; simpl.
  - exists w, []. by rewrite app_nil_r.
  - unfold bind, post_merge, emit. simpl.
    destruct (api_post_merge (store w) (lead_id d)
                (lead_id destination_lead)) as [resp s'] eqn:Hpost.
    simpl.
    edestruct IH as (w' & evs & -> & Htr & Hreq & Hgr & Hget).
    eexists w', (_ :: _ :: evs). split; [done|].
    rewrite Htr. simpl. rewrite <- !app_assoc. simpl.
    by rewrite Hreq, Hgr, Hget.
Qed.

(** C3. Without [--confirmed], [merge_lead] returns at once, whatever the
    destination and however many duplicates: the store is not contacted
    (no request is issued, nothing is logged) and is left as it was. *)
Theorem merge_lead_dry_run args destination_lead duplicates (w : World S) :
  confirmed args = false →
  merge_lead args destination_lead duplicates w = Some ((), w).
Proof. intros Hdry. unfold merge_lead. by rewrite Hdry. Qed.

(** C7. With [--confirmed], [merge_lead] issues one merge request for
    each lead of the duplicates list, one after the other in the order of
    the list, each with that duplicate's ID as source and the destination
    lead's ID as destination; it issues no other merge request, fetches
    nothing, and returns. *)
Theorem merge_lead_confirmed args destination_lead duplicates
    (w : World S) :
  confirmed args = true →
  ∃ w' evs,
    merge_lead args destination_lead duplicates w = Some ((), w')
    ∧ trace w' = trace w ++ evs
    ∧ merge_requests evs
      = map (λ source_lead,
               (lead_id source_lead, lead_id destination_lead)) duplicates
    ∧ fetched evs = [].
Proof.
  intros Hconf. unfold merge_lead. rewrite Hconf. simpl.
  destruct (merge_each_run destination_lead duplicates w)
    as (w' & evs & Hrun & Htr & Hreq & _ & Hget).
  by exists w', evs.
Qed.

(** [merge_lead] always returns; it reports no duplicate group; in a dry
    run it leaves the world alone. *)
Lemma merge_lead_run args destination_lead duplicates (w : World S) :
  ∃ w' evs,
    merge_lead args destination_lead duplicates w = Some ((), w')
    ∧ trace w' = trace w ++ evs
    ∧ duplicate_groups evs = []
    ∧ (confirmed args = false → w' = w ∧ evs = []).
Proof.
  unfold merge_lead. destruct (confirmed args) eqn:Hconf; simpl.
  - destruct (merge_each_run destination_lead duplicates w)
      as (w' & evs & Hrun & Htr & _ & Hgr & _).
    by exists w', evs.
  - exists w, []. by rewrite app_nil_r.
Qed.

End Executor.

(** ** The walker *)

Section Walker.
Context {udb : UnicodeDB} {S : Type} {api : RemoteStore S}.

(** A lead of the page that is in the subsumed set. *)
Lemma process_lead_skipped fuel args lead v (w : World S) :
  lead_id lead ∈ duplicates_this_page v →
  process_lead fuel args lead v w = Some (v, w).
Proof. intros Hin. unfold process_lead. by rewrite bool_decide_eq_true_2. Qed.

(** A lead of the page that is not in the subsumed set. *)
Lemma process_lead_fresh fuel args lead v (w : World S) duplicates w1 :
  lead_id lead ∉ duplicates_this_page v →
  find_duplicates_for_lead fuel lead (field args) w
    = Some (duplicates, w1) →
  ∃ w' evs,
    process_lead fuel args lead v w
      = Some (match duplicates with
              | [] => add_duplicates duplicates v
              | _ => count_merge duplicates (add_duplicates duplicates v)
              end, w')
    ∧ trace w' = trace w ++ evs
    ∧ duplicate_groups evs
      = match duplicates with [] => [] | _ => [(lead, duplicates)] end
    ∧ (confirmed args = false →
       store w' = store w ∧ merge_requests evs = []).
Proof.
  intros Hfresh Hfind. unfold process_lead.
  rewrite bool_decide_eq_false_2 by done.
  unfold bind at 1. rewrite Hfind.
  apply find_duplicates_run in Hfind as (evs1 & Hst & Htr & Hget & _).
  destruct (gets_only _ _ Hget) as [Hreq1 Hgr1]; [naive_solver|].
  destruct duplicates as [|d ds].
  - exists w1, evs1. by rewrite Hgr1.
  - unfold bind, emit. simpl.
    set (w2 := MkWorld (store w1)
                       (trace w1 ++ [LogDuplicates lead (d :: ds)])).
    destruct (merge_lead_run args lead (d :: ds) w2)
      as (w' & evs2 & -> & Htr2 & Hgr2 & Hdry).
    exists w', (evs1 ++ LogDuplicates lead (d :: ds) :: evs2).
    split; [done|]. split.
    { rewrite Htr2. simpl. rewrite Htr. by rewrite <- !app_assoc. }
    split.
    { rewrite duplicate_groups_app. simpl. by rewrite Hgr1, Hgr2. }
    intros Hc. destruct (Hdry Hc) as [-> ->]. simpl.
    split; [done|]. rewrite merge_requests_app. by rewrite Hreq1.
Qed.

(** From the same world, the variables after a lead are the same with and
    without [--confirmed]. *)
Lemma process_lead_vars_ignore_confirmation fuel f lead v (w : World S) :
  fst <$> process_lead fuel {| field := f; confirmed := true |} lead v w
  = fst <$> process_lead fuel {| field := f; confirmed := false |} lead v w.
Proof.
  destruct (decide (lead_id lead ∈ duplicates_this_page v)) as [Hin|Hin].
  - by rewrite !process_lead_skipped.
  - destruct (find_duplicates_for_lead fuel lead f w)
      as [[duplicates w1]|] eqn:Hfind.
    + destruct (process_lead_fresh fuel {| field := f; confirmed := true |}
                  lead v w duplicates w1 Hin Hfind) as (wa & ? & -> & _).
      destruct (process_lead_fresh fuel {| field := f; confirmed := false |}
                  lead v w duplicates w1 Hin Hfind) as (wb & ? & -> & _).
      done.
    + unfold process_lead. rewrite bool_decide_eq_false_2 by done.
      unfold bind at 1 4. simpl field. by rewrite Hfind.
Qed.

(** What one lead of the page adds to the trace and to the count. *)
Lemma process_lead_run fuel args lead v (w : World S) v' w' :
  process_lead fuel args lead v w = Some (v', w') →
  ∃ evs,
    trace w' = trace w ++ evs
    ∧ leads_merged_this_page v'
      = leads_merged_this_page v + leads_in_groups (duplicate_groups evs)
    ∧ offset v' = offset v
    ∧ (confirmed args = false →
       store w' = store w ∧ merge_requests evs = []).
Proof.
  intros Hlead.
  destruct (decide (lead_id lead ∈ duplicates_this_page v)) as [Hin|Hin].
  - rewrite process_lead_skipped in Hlead by done.
    injection Hlead as <- <-. exists []. rewrite app_nil_r. simpl.
    split_and!; [done|lia|done..].
  - destruct (find_duplicates_for_lead fuel lead (field args) w)
      as [[duplicates w0]|] eqn:Hfind.
    + destruct (process_lead_fresh fuel args lead v w duplicates w0
                  Hin Hfind) as (w1 & evs & Hrun & Htr & Hgr & Hdry).
      rewrite Hrun in Hlead. injection Hlead as <- <-.
      exists evs. rewrite Hgr.
      destruct duplicates; simpl; split_and!; try done; lia.
    + unfold process_lead in Hlead.
      rewrite bool_decide_eq_false_2 in Hlead by done.
      unfold bind at 1 in Hlead. by rewrite Hfind in Hlead.
Qed.

(** The leads of a page: the count kept in [leads_merged_this_page] is
    the number of leads in the groups reported, destinations included. *)
Lemma process_leads_run fuel args leads v (w : World S) v' w' :
  process_leads fuel args leads v w = Some (v', w') →
  ∃ evs,
    trace w' = trace w ++ evs
    ∧ leads_merged_this_page v'
      = leads_merged_this_page v + leads_in_groups (duplicate_groups evs)
    ∧ offset v' = offset v
    ∧ (confirmed args = false →
       store w' = store w ∧ merge_requests evs = []).
Proof.
  revert v w. induction leads as [|lead leads IH]; intros v w; simpl.
  - intros [= <- <-]. exists []. rewrite app_nil_r. simpl.
    split_and!; [done|lia|done..].
  - unfold bind at 1.
    destruct (process_lead fuel args lead v w) as [[v1 w1]|] eqn:Hlead;
      [|done].
    intros Hrest.
    apply IH in Hrest as (evs2 & Htr2 & Hcnt2 & Hoff2 & Hdry2).
    apply process_lead_run in Hlead
      as (evs1 & Htr1 & Hcnt1 & Hoff1 & Hdry1).
    exists (evs1 ++ evs2). rewrite Htr2, Htr1, <- app_assoc.
    rewrite duplicate_groups_app, leads_in_groups_app, merge_requests_app.
    split_and!; [done|lia|congruence|].
    intros Hc. destruct (Hdry1 Hc) as [Hs1 ->].
    destruct (Hdry2 Hc) as [Hs2 ->]. split; [congruence|done].
Qed.

(** One turn of the main loop. *)
Lemma process_page_run fuel args v (w : World S) v' w' :
  process_page fuel args v w = Some (v', w') →
  ∃ evs,
    let resp := api_get (store w) (str "sort:date_created") (offset v) in
    trace w'
      = trace w ++ GetLeads (str "sort:date_created") (offset v) resp :: evs
    ∧ leads_merged_this_page v' = leads_in_groups (duplicate_groups evs)
    ∧ offset v'
      = offset v + Z.max 0 (Z.of_nat (length (data resp))
                            - leads_merged_this_page v')
    ∧ has_more_pages v' = has_more resp
    ∧ (confirmed args = false →
       store w' = store w ∧ merge_requests evs = []).
Proof.
  unfold process_page, bind at 1, get. simpl.
  set (resp := api_get (store w) (str "sort:date_created") (offset v)).
  unfold bind.
  destruct (process_leads fuel args (data resp) (start_page v) _)
    as [[v1 w1]|] eqn:Hleads; [|done].
  intros [= <- <-].
  apply process_leads_run in Hleads as (evs & Htr & Hcnt & Hoff & Hdry).
  exists evs. simpl in *.
  rewrite Htr, <- app_assoc. simpl. rewrite Hcnt, Hoff.
  split_and!; try done.
Qed.

(** C6. Within a page, a lead whose ID is in the page's subsumed set is
    skipped: neither the finder nor the executor runs for it, the world
    and the variables are as before.  The set is empty when a page
    starts, whatever the page before left in it.  The IDs of all the
    duplicates found for a lead are in the set when the loop goes on to
    the rest of the page. *)
Theorem subsumed_leads_skipped fuel args lead leads v (w : World S) :
  (lead_id lead ∈ duplicates_this_page v →
     process_lead fuel args lead v w = Some (v, w)
     ∧ process_leads fuel args (lead :: leads) v w
       = process_leads fuel args leads v w)
  ∧ (duplicates_this_page (start_page v) = ∅
     ∧ ∀ v0, offset v0 = offset v →
             total_leads_merged v0 = total_leads_merged v →
             has_more_pages v0 = has_more_pages v →
             process_page fuel args v0 w = process_page fuel args v w)
  ∧ (∀ duplicates w1,
       lead_id lead ∉ duplicates_this_page v →
       find_duplicates_for_lead fuel lead (field args) w
         = Some (duplicates, w1) →
       ∃ v1 w2,
         process_lead fuel args lead v w = Some (v1, w2)
         ∧ duplicates_this_page v1
           = duplicates_this_page v ∪ list_to_set (map lead_id duplicates)
         ∧ (∀ d : Lead, d ∈ duplicates → lead_id d ∈ duplicates_this_page v1)
         ∧ process_leads fuel args (lead :: leads) v w
           = process_leads fuel args leads v1 w2).
Proof.
  split_and!.
  - intros Hin.
    assert (process_lead fuel args lead v w = Some (v, w)) as Hskip
      by by apply process_lead_skipped.
    split; [done|]. simpl. unfold bind at 1. by rewrite Hskip.
  - done.
  - intros v0 Hoff Htot Hmore. unfold process_page.
    rewrite Hoff.
    replace (start_page v0) with (start_page v); [done|].
    unfold start_page. by rewrite Hoff, Htot, Hmore.
  - intros duplicates w1 Hfresh Hfind.
    destruct (process_lead_fresh fuel args lead v w duplicates w1
                Hfresh Hfind) as (w2 & evs & Hrun & _).
    eexists _, w2. split; [exact Hrun|].
    split_and!.
    + by destruct duplicates.
    + intros d Hd.
      assert (lead_id d ∈ duplicates_this_page (add_duplicates duplicates v))
        as Hadd.
      { simpl. apply elem_of_union_r, elem_of_list_to_set.
        by apply list_elem_of_fmap_2. }
      by destruct duplicates.
    + simpl. unfold bind at 1. by rewrite Hrun.
Qed.

(** C10. The count of a page and the step of the offset do not depend on
    [--confirmed]. From the same world the variables after a lead are the
    same with the flag and without. Whatever the flag, when a page is
    done [leads_merged_this_page] is the number of duplicates plus one,
    summed over the leads of the page for which duplicates were found, and
    the offset has advanced by
    [max(0, len(leads) - leads_merged_this_page)]; so it is in a dry run,
    where no merge request is issued and the store is as before. *)
Theorem page_count_ignores_confirmation fuel args v (w : World S) :
  (∀ lead,
     fst <$> process_lead fuel {| field := field args; confirmed := true |}
                          lead v w
     = fst <$> process_lead fuel {| field := field args; confirmed := false |}
                            lead v w)
  ∧ ∀ v' w',
      process_page fuel args v w = Some (v', w') →
      ∃ evs,
        let resp := api_get (store w) (str "sort:date_created") (offset v) in
        trace w'
          = trace w
              ++ GetLeads (str "sort:date_created") (offset v) resp :: evs
        ∧ leads_merged_this_page v' = leads_in_groups (duplicate_groups evs)
        ∧ offset v'
          = offset v + Z.max 0 (Z.of_nat (length (data resp))
                                - leads_merged_this_page v')
        ∧ (confirmed args = false →
           store w' = store w ∧ merge_requests evs = []).
Proof.
  split; [intros lead; apply process_lead_vars_ignore_confirmation|].
  intros v' w' Hpage.
  apply process_page_run in Hpage as (evs & Htr & Hcnt & Hoff & _ & Hdry).
  by exists evs.
Qed.

(** C1, as amended. After a page of 50 leads on which one group of three
    leads was found (one destination, which survives, and its two
    duplicates), [leads_merged_this_page] is 3, the destination counted,
    and the next offset is 50 - 3 further. *)
Theorem offset_after_one_group_of_three fuel args v (w : World S) v' w'
    e evs lead duplicates :
  process_page fuel args v w = Some (v', w') →
  trace w' = trace w ++ e :: evs →
  length (data (api_get (store w) (str "sort:date_created") (offset v)))
    = 50%nat →
  duplicate_groups evs = [(lead, duplicates)] →
  length duplicates = 2%nat →
  leads_merged_this_page v' = 3 ∧ offset v' = offset v + (50 - 3).
Proof.
  intros Hpage Htr Hlen Hgroups Hdups.
  apply process_page_run in Hpage as (evs' & Htr' & Hcnt & Hoff & _).
  simpl in Htr', Hoff. rewrite Htr' in Htr.
  apply app_inv_head in Htr. injection Htr as _ ->.
  rewrite Hgroups in Hcnt. simpl in Hcnt. rewrite Hdups in Hcnt.
  rewrite Hoff, Hlen, Hcnt. split; lia.
Qed.

End Walker.

(** ** The scenarios, run *)


Section Runs.
Import Scenario.
#[local] Existing Instance ascii_db.
#[local] Existing Instance ListStore.remote.

Lemma merge_lead_dry_run_witness :
  confirmed (dry_run Company) = false
  ∧ merge_lead (dry_run Company) leadA [leadB] world = Some ((), world).
Proof.
  split; [reflexivity|]. apply merge_lead_dry_run. reflexivity.
Defined.

Lemma merge_lead_confirmed_witness :
  confirmed (for_real Company) = true
  ∧ ∃ w' evs,
      merge_lead (for_real Company) leadA [leadB] world = Some ((), w')
      ∧ trace w' = trace world ++ evs
      ∧ merge_requests evs = [(lead_id leadB, lead_id leadA)]
      ∧ fetched evs = [].
Proof.
  split; [reflexivity|].
  apply (merge_lead_confirmed (for_real Company) leadA [leadB] world).
  reflexivity.
Defined.

(** The scenario of the two Acme leads: the search for [leadA] returns
    [leadB] and nothing else. *)
Lemma company_duplicates_exact_witness :
  ∃ duplicates,
    find_duplicates_for_lead 5 leadA Company world
      = Some (duplicates, world_after_search leadA Company)
    ∧ ∀ l : Lead,
        l ∈ duplicates
        ↔ l ∈ leads
          ∧ lead_id l ≠ lead_id leadA
          ∧ lower (strip (name l)) = lower (strip (name leadA)).
Proof. exact (company_duplicates_exact 5 leadA world). Defined.

(** The scenario of the shared address: [leadD], which has [a@x.com]
    and another address, is a duplicate of [leadC], which has
    [a@x.com] only. *)
Lemma contact_duplicates_any_shared_witness :
  Email ≠ Company
  ∧ find_duplicates_for_lead 5 leadC Email world
    = Some ([leadD], world_after_search leadC Email)
  ∧ ∃ duplicates,
      find_duplicates_for_lead 5 leadC Email world
        = Some (duplicates, world_after_search leadC Email)
      ∧ ∀ l : Lead,
          l ∈ duplicates
          ↔ l ∈ leads
            ∧ lead_id l ≠ lead_id leadC
            ∧ ∃ e : unicode,
                e ∈ elem_values Email l ∧ e ∈ elem_values Email leadC.
Proof.
  assert (Email ≠ Company) as Hf by discriminate.
  split; [exact Hf|]. split; [vm_compute; reflexivity|].
  exact (proj2 (contact_duplicates_any_shared 5 Email leadC world Hf)).
Defined.

(** [leadB], found as a duplicate of [leadA], is skipped when the page
    comes to it. *)
Lemma subsumed_leads_skipped_witness :
  process_lead 5 (dry_run Company) leadB vars_after_A world
    = Some (vars_after_A, world)
  ∧ ∃ v1 w2,
      process_lead 5 (dry_run Company) leadA (start_page initial_vars)
                   world = Some (v1, w2)
      ∧ lead_id leadB ∈ duplicates_this_page v1.
Proof.
  split.
  - apply (subsumed_leads_skipped 5 (dry_run Company) leadB []
             vars_after_A world).
    by_evaluation.
  - destruct (subsumed_leads_skipped 5 (dry_run Company) leadA []
                (start_page initial_vars) world) as (_ & _ & Hadd).
    destruct (Hadd [leadB] (world_after_search leadA Company))
      as (v1 & w2 & Hrun & _ & Hin & _).
    + by_evaluation.
    + vm_compute. reflexivity.
    + exists v1, w2. split; [exact Hrun|]. apply Hin. constructor.
Defined.

(** A dry run over the five leads by company: one group of two, a count
    of 2, an offset of 3, and the store as it was. *)
Lemma page_count_ignores_confirmation_witness :
  ∃ v' w',
    process_page 5 (dry_run Company) initial_vars world = Some (v', w')
    ∧ store w' = leads
    ∧ leads_merged_this_page v' = 2
    ∧ offset v' = 3.
Proof.
  eexists _, _. split; [vm_compute; reflexivity|].
  edestruct (proj2 (page_count_ignores_confirmation 5 (dry_run Company)
                      initial_vars world))
    as (evs & Htr & Hcnt & Hoff & Hdry).
  { vm_compute. reflexivity. }
  split; [|split].
  - apply Hdry. reflexivity.
  - vm_compute. reflexivity.
  - vm_compute. reflexivity.
Defined.


(** C2. The code does not choose the destination by opportunities: of
    [leadA], without opportunities, and [leadB], with one, the walker
    makes [leadA], the lead it visits first, the destination, and
    [leadB] the source. *)
Theorem destination_is_lead_visited :
  opportunities leadA = [] ∧ opportunities leadB ≠ []
  ∧ duplicate_groups ∘ trace ∘ snd <$> walkAB = Some [(leadA, [leadB])]
  ∧ merge_requests ∘ trace ∘ snd <$> walkAB
    = Some [(lead_id leadB, lead_id leadA)]
  ∧ map lead_id ∘ store ∘ snd <$> walkAB = Some [lead_id leadA].
Proof. split_and!; try done; vm_compute; reflexivity. Qed.

(** C8 as stated does not hold: a double quote in a value goes into the
    query as it is. The query built for the one value
    [a@x.com", "b@x.com] is, octet for octet, the query built for the two
    values [a@x.com] and [b@x.com]: it does not denote the original
    string. *)
Lemma value_with_quote_collides :
  dquote ∈ two_in_one
  ∧ build_query Email [two_in_one]
    = build_query Email [str "a@x.com"; str "b@x.com"]
  ∧ [two_in_one] ≠ [str "a@x.com"; str "b@x.com"].
Proof.
  split_and!;
    [by_evaluation | vm_compute; reflexivity | vm_compute; discriminate].
Qed.

(** An address with an accented letter, searched for next to a value that
    has a double quote in it. *)
Lemma quote_free_values_embedded_witness :
  [two_in_one; accented_email] !! 1%nat = Some accented_email
  ∧ Forall (λ c, 0 ≤ c < 0x110000 ∧ c ≠ dquote) accented_email
  ∧ utf8_encode accented_email = str "ren" ++ [0xC3; 0xA9] ++ str "@x.com"
  ∧ build_query Email [two_in_one; accented_email]
    = (str "email in (" ++ quote (utf8_encode two_in_one) ++ str ", ")
      ++ [dquote] ++ utf8_encode accented_email ++ [dquote]
      ++ str ") sort:date_created"
  ∧ (dquote ∉ utf8_encode accented_email)
  ∧ utf8_decode (utf8_encode accented_email) = Some accented_email
  ∧ Forall (Forall (λ c, 0 ≤ c < 0x110000 ∧ c ≠ dquote))
           [accented_email; str "b@x.com"]
  ∧ ∀ vals',
      Forall (Forall (λ c, 0 ≤ c < 0x110000 ∧ c ≠ dquote)) vals' →
      build_query Email vals'
      = build_query Email [accented_email; str "b@x.com"] →
      vals' = [accented_email; str "b@x.com"].
Proof.
  assert (Forall (λ c, 0 ≤ c < 0x110000 ∧ c ≠ dquote) accented_email)
    as Hv by by_evaluation.
  assert (Forall (Forall (λ c, 0 ≤ c < 0x110000 ∧ c ≠ dquote))
                 [accented_email; str "b@x.com"]) as Hvals
    by by_evaluation.
  destruct (quote_free_values_embedded Email [two_in_one; accented_email]
              1%nat accented_email eq_refl Hv) as [(Hat & Hq & Hdec) _].
  destruct (quote_free_values_embedded Email
              [accented_email; str "b@x.com"]
              0%nat accented_email eq_refl Hv) as [_ Hinj].
  split_and!; [reflexivity | exact Hv | vm_compute; reflexivity
               | exact Hat | exact Hq | exact Hdec | exact Hvals
               | exact (Hinj Hvals)].
Defined.

End Runs.

Section RunsBy50.
Import Scenario.
#[local] Existing Instance ascii_db.
#[local] Existing Instance pages_of_50.

(** C1 as stated does not hold. Of sixty leads the first three are one
    company. The first page has 50 leads; on it one group is found, lead
    0 with leads 1 and 2, which are merged into it and removed: 58 leads
    are left. The next page is fetched at offset 47, not 48. *)
Lemma offset_counts_destination_lead :
  length (data (api_get (store world60) (str "sort:date_created") 0))
    = 50%nat
  ∧ duplicate_groups ∘ trace ∘ snd <$> walk60
    = Some [(numbered 0, [numbered 1; numbered 2])]
  ∧ merge_requests ∘ trace ∘ snd <$> walk60
    = Some [(lead_id (numbered 1), lead_id (numbered 0));
            (lead_id (numbered 2), lead_id (numbered 0))]
  ∧ length ∘ store ∘ snd <$> walk60 = Some 58%nat
  ∧ page_skips ∘ trace ∘ snd <$> walk60 = Some [0; 47]
  ∧ 47 ≠ 0 + (50 - 2).
Proof. split_and!; try (vm_compute; reflexivity). lia. Qed.

(** A dry run over a page of fifty leads of which the first three are
    one company. *)
Lemma offset_after_one_group_of_three_witness :
  ∃ v' w',
    process_page 2 (dry_run Company) initial_vars world50 = Some (v', w')
    ∧ leads_merged_this_page v' = 3 ∧ offset v' = 0 + (50 - 3).
Proof.
  eexists _, _. split; [vm_compute; reflexivity|].
  eapply (offset_after_one_group_of_three 2 (dry_run Company)
            initial_vars world50).
  - vm_compute. reflexivity.
  - simpl. reflexivity.
  - vm_compute. reflexivity.
  - vm_compute. reflexivity.
  - reflexivity.
Defined.

End RunsBy50.

(** * Further properties *)

(** ** More on the duplicate finder *)

Lemma request_skips_app evs1 evs2 :
  request_skips (evs1 ++ evs2) = request_skips evs1 ++ request_skips evs2.
Proof. unfold request_skips. by rewrite flat_map_app. Qed.

Lemma completions_app evs1 evs2 :
  completions (evs1 ++ evs2) = completions evs1 ++ completions evs2.
Proof. unfold completions. by rewrite flat_map_app. Qed.

Lemma page_skips_app evs1 evs2 :
  page_skips (evs1 ++ evs2) = page_skips evs1 ++ page_skips evs2.
Proof. unfold page_skips. by rewrite flat_map_app. Qed.

(** The query of a search is not the query of the walker. *)
Lemma build_query_not_sort f vals : build_query f vals ≠ str "sort:date_created".
Proof. by destruct f. Qed.

(** The requests of a search are neither merges nor log lines nor page
    fetches of the walker. *)
Lemma search_events_silent f vals evs :
  Forall (λ e, ∃ k resp, e = GetLeads (build_query f vals) k resp) evs →
  merge_requests evs = [] ∧ duplicate_groups evs = []
  ∧ completions evs = [] ∧ page_skips evs = [].
Proof.
  induction 1 as [|e evs (k & resp & ->) _ (IH1 & IH2 & IH3 & IH4)]; [done|].
  simpl. rewrite IH1, IH2, IH3, IH4.
  rewrite bool_decide_eq_false_2; [done|]. apply build_query_not_sort.
Qed.

Section FinderMore.
Context {udb : UnicodeDB} {S : Type} {api : RemoteStore S}.

(** The protocol of one search, from any offset. *)
Lemma search_requests_protocol fuel (s : S) query skip evs :
  search_requests fuel s query skip = Some evs →
  Forall (λ e, ∃ k, e = GetLeads query k (api_get s query k)) evs
  ∧ request_skips evs = running_sums skip (answer_sizes evs)
  ∧ answer_flags evs = replicate (Nat.pred (length evs)) true ++ [false].
Proof.
  revert skip evs. induction fuel as [|fuel IH]; intros skip evs; [done|].
  simpl. destruct (has_more (api_get s query skip)) eqn:Hmore.
  - destruct (search_requests fuel s query _) as [evs'|] eqn:E; [|done].
    simpl. intros [= <-]. destruct (IH _ _ E) as (Hall & Hskips & Hflags).
    split_and!.
    + constructor; eauto.
    + simpl. by rewrite Hskips.
    + simpl. rewrite Hmore, Hflags.
      destruct evs' as [|e evs']; [|done].
      destruct fuel; simpl in E; [done|]. by destruct (has_more _).
  - intros [= <-]. split_and!; [repeat constructor; eauto|done|].
    simpl. by rewrite Hmore.
Qed.

(** X1. The finder only reads: when it returns the store is as before, and
    all it did was to fetch answers to its one query; it issued no merge
    request and reported nothing. *)
Theorem finder_only_reads fuel lead f (w : World S) duplicates w' :
  find_duplicates_for_lead fuel lead f w = Some (duplicates, w') →
  store w' = store w
  ∧ ∃ evs,
      trace w' = trace w ++ evs
      ∧ Forall (λ e, ∃ k resp,
                  e = GetLeads (build_query f (search_values lead f)) k resp)
               evs
      ∧ merge_requests evs = [] ∧ duplicate_groups evs = []
      ∧ completions evs = [].
Proof.
  intros Hrun.
  apply find_duplicates_run in Hrun as (evs & Hst & Htr & Hget & _).
  split; [done|]. exists evs.
  destruct (search_events_silent _ _ _ Hget) as (? & ? & ? & _). done.
Qed.

(** X2. The pagination of a search: every request carries the same query;
    its [_skip] is the number of leads received so far, 0 at first; every
    answer but the last said [has_more], the last one did not. *)
Theorem finder_pagination fuel lead f (w : World S) duplicates w' :
  search_values lead f ≠ [] →
  find_duplicates_for_lead fuel lead f w = Some (duplicates, w') →
  ∃ evs,
    trace w' = trace w ++ evs
    ∧ Forall (λ e, ∃ k,
                e = GetLeads (build_query f (search_values lead f)) k
                      (api_get (store w)
                         (build_query f (search_values lead f)) k)) evs
    ∧ request_skips evs = running_sums 0 (answer_sizes evs)
    ∧ answer_flags evs = replicate (Nat.pred (length evs)) true ++ [false].
Proof.
  intros Hvals. rewrite find_duplicates_spec. unfold finder_requests.
  destruct (search_values lead f) as [|v vals] eqn:E; [done|].
  destruct (search_requests _ _ _ _) as [evs|] eqn:Hreq; [|done].
  simpl. intros [= <- <-]. exists evs. split; [done|].
  by apply search_requests_protocol in Hreq.
Qed.

(** X3. The list returned is the list of the leads fetched, page after page
    in the order received, without those that have the input lead's ID and
    those that do not match: nothing is reordered, and a lead received
    twice is listed twice. *)
Theorem finder_keeps_fetch_order fuel lead f (w : World S) duplicates w' :
  find_duplicates_for_lead fuel lead f w = Some (duplicates, w') →
  ∃ evs,
    trace w' = trace w ++ evs
    ∧ duplicates
      = List.filter
          (λ l, negb (bool_decide (lead_id l = lead_id lead))
                && is_exact_match f lead l)
          (fetched evs).
Proof.
  intros Hrun.
  apply find_duplicates_run in Hrun as (evs & _ & Htr & _ & ->).
  by exists evs.
Qed.

Lemma is_exact_match_sym f (a b : Lead) :
  is_exact_match f a b = is_exact_match f b a.
Proof.
  destruct f; simpl; apply bool_decide_ext;
    [naive_solver | by rewrite (comm_L (∩) (elem_set _ a))..].
Qed.

(** X4. Matching does not depend on which of two leads is the input: [b]
    is kept as a duplicate of [a] exactly when [a] is kept as a duplicate
    of [b], for every field. By company it is also transitive: if [b]
    matches [a] and [c] matches [b], then [c] matches [a], unless it has
    [a]'s ID. *)
Theorem matching_symmetric f (a b c : Lead) :
  kept f a b = kept f b a
  ∧ (kept Company a b = true → kept Company b c = true →
     lead_id a ≠ lead_id c → kept Company a c = true).
Proof.
  split.
  - unfold kept. rewrite is_exact_match_sym. f_equal. f_equal.
    apply bool_decide_ext. naive_solver.
  - unfold kept. simpl.
    rewrite !andb_true_iff, !negb_true_iff, !bool_decide_eq_false,
      !bool_decide_eq_true.
    intros [_ Hab] [_ Hbc] Hac. split; [naive_solver|congruence].
Qed.

Lemma lstrip_blank (s : list Z) :
  Forall (λ c, isspace c = true) s → lstrip s = [].
Proof. induction 1 as [|c s Hc _ IH]; [done|]. simpl. by rewrite Hc. Qed.

Lemma strip_blank (s : list Z) :
  Forall (λ c, isspace c = true) s → strip s = [].
Proof. intros Hs. unfold strip, rstrip. by rewrite (lstrip_blank s). Qed.

(** X5. Leads without a company name are duplicates of each other by
    company: when both names are empty or white space only, and the IDs
    differ, the one is kept as a duplicate of the other. The search is
    issued all the same, for the name as it is. *)
Theorem blank_company_names_match fuel (s : S) (a b : Lead) :
  Forall (λ c, isspace c = true) (name a) →
  Forall (λ c, isspace c = true) (name b) →
  lead_id a ≠ lead_id b →
  kept Company a b = true
  ∧ finder_requests fuel s a Company
    = search_requests fuel s (build_query Company [name a]) 0.
Proof.
  intros Ha Hb Hid. split; [|done]. unfold kept. simpl.
  rewrite !strip_blank by done.
  rewrite bool_decide_eq_false_2 by naive_solver.
  by rewrite bool_decide_eq_true_2.
Qed.

End FinderMore.

(** ** More on the walker *)

Lemma group_sources_app g1 g2 :
  group_sources (g1 ++ g2) = group_sources g1 ++ group_sources g2.
Proof. unfold group_sources. by rewrite flat_map_app. Qed.

Lemma group_requests_app g1 g2 :
  group_requests (g1 ++ g2) = group_requests g1 ++ group_requests g2.
Proof. unfold group_requests. by rewrite flat_map_app. Qed.

Lemma destinations_fresh_app seen g1 g2 :
  destinations_fresh seen (g1 ++ g2)
  ↔ destinations_fresh seen g1
    ∧ destinations_fresh (seen ∪ list_to_set (group_sources g1)) g2.
Proof.
  revert seen. induction g1 as [|g g1 IH]; intros seen; simpl.
  - rewrite union_empty_r_L. tauto.
  - rewrite IH. unfold group_sources at 2. simpl.
    fold (group_sources g1).
    rewrite list_to_set_app_L, (assoc_L (∪)). tauto.
Qed.

Lemma leads_in_groups_nonneg groups : 0 ≤ leads_in_groups groups.
Proof. induction groups as [|[? ?] ? IH]; simpl; lia. Qed.

Lemma page_effects_refl args v : page_effects args v v [].
Proof.
  unfold page_effects. simpl. rewrite union_empty_r_L.
  split_and!; try done; try lia. by destruct (confirmed args).
Qed.

Lemma page_effects_trans args v1 v2 v3 evs1 evs2 :
  page_effects args v1 v2 evs1 → page_effects args v2 v3 evs2 →
  page_effects args v1 v3 (evs1 ++ evs2).
Proof.
  intros (A1 & A2 & A3 & A4 & A5 & A6 & A7 & A8 & A9 & A10)
         (B1 & B2 & B3 & B4 & B5 & B6 & B7 & B8 & B9 & B10).
  unfold page_effects.
  rewrite duplicate_groups_app, merge_requests_app, completions_app,
    page_skips_app, length_app, leads_in_groups_app, group_sources_app,
    list_to_set_app_L, group_requests_app, destinations_fresh_app,
    Forall_app.
  rewrite A8, B8, A9, B9, A10, B10, B1, B2, B3, B4, B5, A1, A2, A3, A4, A5.
  split_and!; try done; try lia.
  - by rewrite (assoc_L (∪)).
  - by rewrite <- A5.
  - by destruct (confirmed args).
Qed.

Section WalkerMore.
Context {udb : UnicodeDB} {S : Type} {api : RemoteStore S}.

Lemma merge_each_effects destination_lead duplicates (w : World S) :
  ∃ w' evs,
    merge_each destination_lead duplicates w = Some ((), w')
    ∧ trace w' = trace w ++ evs
    ∧ merge_requests evs
      = map (λ source_lead,
               (lead_id source_lead, lead_id destination_lead)) duplicates
    ∧ duplicate_groups evs = [] ∧ completions evs = []
    ∧ page_skips evs = [].
Proof.
  revert w. induction duplicates as [|d ds IH]; intros w; simpl.
  - exists w, []. by rewrite app_nil_r.
  - unfold bind, post_merge, emit. simpl.
    destruct (api_post_merge (store w) (lead_id d)
                (lead_id destination_lead)) as [resp s'] eqn:Hpost.
    simpl.
    edestruct IH as (w' & evs & -> & Htr & Hreq & Hgr & Hco & Hsk).
    eexists w', (_ :: _ :: evs). split; [done|].
    rewrite Htr. simpl. rewrite <- !app_assoc. simpl.
    by rewrite Hreq, Hgr, Hco, Hsk.
Qed.

Lemma kept_sound f lead (leads : list Lead) :
  Forall (λ l, lead_id l ≠ lead_id lead) (List.filter (kept f lead) leads).
Proof.
  apply Forall_forall. intros l Hl.
  apply list_elem_of_In, filter_In in Hl as [_ Hl].
  unfold kept in Hl.
  by apply andb_true_iff in Hl as [Hl%negb_true_iff%bool_decide_eq_false _].
Qed.

(** What one lead of a page does. *)
Lemma process_lead_effects fuel args lead v (w : World S) v' w' :
  process_lead fuel args lead v w = Some (v', w') →
  ∃ evs,
    trace w' = trace w ++ evs
    ∧ page_effects args v v' evs
    ∧ (confirmed args = false → store w' = store w).
Proof.
  intros Hlead.
  destruct (decide (lead_id lead ∈ duplicates_this_page v)) as [Hin|Hin].
  { rewrite process_lead_skipped in Hlead by done.
    injection Hlead as <- <-. exists []. rewrite app_nil_r.
    split; [done|]. split; [apply page_effects_refl|done]. }
  unfold process_lead in Hlead.
  rewrite bool_decide_eq_false_2 in Hlead by done.
  unfold bind at 1 in Hlead.
  destruct (find_duplicates_for_lead fuel lead (field args) w)
    as [[duplicates w1]|] eqn:Hfind; [|done].
  apply find_duplicates_run in Hfind as (evs1 & Hst & Htr & Hget & Hdup).
  destruct (search_events_silent _ _ _ Hget) as (Hreq1 & Hgr1 & Hco1 & Hsk1).
  destruct duplicates as [|d ds] eqn:Hds.
  - injection Hlead as <- <-. exists evs1. split; [done|].
    split; [|done]. unfold page_effects. rewrite Hreq1, Hgr1, Hco1, Hsk1.
    simpl. split_and!; try done; try lia. by destruct (confirmed args).
  - rewrite <- Hds in *. unfold bind at 1, emit at 1 in Hlead.
    set (w2 := MkWorld (store w1) (trace w1 ++ [LogDuplicates lead duplicates]))
      in Hlead.
    unfold bind at 1 in Hlead.
    assert (∃ w3 evs2, merge_lead args lead duplicates w2 = Some ((), w3)
      ∧ trace w3 = trace w2 ++ evs2
      ∧ merge_requests evs2
        = (if confirmed args
           then map (λ s, (lead_id s, lead_id lead)) duplicates else [])
      ∧ duplicate_groups evs2 = [] ∧ completions evs2 = []
      ∧ page_skips evs2 = []
      ∧ (confirmed args = false → store w3 = store w2))
      as (w3 & evs2 & Hm & Htr2 & Hreq2 & Hgr2 & Hco2 & Hsk2 & Hdry).
    { unfold merge_lead. destruct (confirmed args); simpl.
      - destruct (merge_each_effects lead duplicates w2)
          as (w3 & evs2 & ? & ? & ? & ? & ? & ?).
        exists w3, evs2. split_and!; done.
      - exists w2, []. rewrite app_nil_r. split_and!; done. }
    rewrite Hm in Hlead. injection Hlead as <- <-.
    exists (evs1 ++ LogDuplicates lead duplicates :: evs2).
    split.
    { rewrite Htr2. simpl. rewrite Htr, <- !app_assoc. done. }
    split; [|intros Hc; rewrite (Hdry Hc); simpl; done].
    unfold page_effects.
    rewrite duplicate_groups_app, merge_requests_app, completions_app,
      page_skips_app. simpl.
    rewrite Hreq1, Hgr1, Hco1, Hsk1, Hreq2, Hgr2, Hco2, Hsk2. simpl.
    rewrite ?app_nil_r.
    split_and!; try done; try lia.
    repeat constructor; [by rewrite Hds|]. simpl.
    rewrite Hdup. apply kept_sound.
Qed.

Lemma process_leads_effects fuel args leads v (w : World S) v' w' :
  process_leads fuel args leads v w = Some (v', w') →
  ∃ evs,
    trace w' = trace w ++ evs
    ∧ page_effects args v v' evs
    ∧ (confirmed args = false → store w' = store w).
Proof.
  revert v w. induction leads as [|lead leads IH]; intros v w; simpl.
  - intros [= <- <-]. exists []. rewrite app_nil_r.
    split; [done|]. split; [apply page_effects_refl|done].
  - unfold bind at 1.
    destruct (process_lead fuel args lead v w) as [[v1 w1]|] eqn:Hlead;
      [|done].
    intros Hrest.
    apply IH in Hrest as (evs2 & Htr2 & He2 & Hdry2).
    apply process_lead_effects in Hlead as (evs1 & Htr1 & He1 & Hdry1).
    exists (evs1 ++ evs2). rewrite Htr2, Htr1, <- app_assoc.
    split; [done|]. split; [by eapply page_effects_trans|].
    intros Hc. rewrite Hdry2, Hdry1; done.
Qed.

Lemma process_page_effects fuel args v (w : World S) v' w' :
  process_page fuel args v w = Some (v', w') →
  ∃ v1 evs,
    let resp := api_get (store w) (str "sort:date_created") (offset v) in
    trace w'
      = trace w ++ GetLeads (str "sort:date_created") (offset v) resp :: evs
    ∧ page_effects args (start_page v) v1 evs
    ∧ v' = finish_page resp v1
    ∧ (confirmed args = false → store w' = store w).
Proof.
  unfold process_page, bind at 1, get. simpl.
  set (resp := api_get (store w) (str "sort:date_created") (offset v)).
  unfold bind.
  destruct (process_leads fuel args (data resp) (start_page v) _)
    as [[v1 w1]|] eqn:Hleads; [|done].
  intros [= <- <-].
  apply process_leads_effects in Hleads as (evs & Htr & He & Hdry).
  exists v1, evs. simpl in *. rewrite Htr, <- app_assoc. done.
Qed.

End WalkerMore.

Lemma group_requests_sound groups :
  Forall group_sound groups →
  Forall (λ r : list Z * list Z, fst r ≠ snd r) (group_requests groups).
Proof.
  induction 1 as [|[d dups] groups [_ Hg] _ IH]; [constructor|].
  unfold group_requests. simpl. apply Forall_app. split; [|exact IH].
  simpl in Hg. apply Forall_map. eapply Forall_impl; [exact Hg|]. done.
Qed.

Section WalkMore.
Context {udb : UnicodeDB} {S : Type} {api : RemoteStore S}.

(** The whole walk. *)
Lemma walk_effects pages fuel args v (w : World S) v' w' :
  walk pages fuel args v w = Some (v', w') →
  ∃ evs,
    trace w' = trace w ++ evs ++ [LogComplete (total_leads_merged v')]
    ∧ has_more_pages v' = false
    ∧ total_leads_merged v'
      = total_leads_merged v + Z.of_nat (length (duplicate_groups evs))
    ∧ Forall group_sound (duplicate_groups evs)
    ∧ merge_requests evs
      = (if confirmed args then group_requests (duplicate_groups evs) else [])
    ∧ completions evs = []
    ∧ StronglySorted Z.le (page_skips evs)
    ∧ Forall (λ k, offset v ≤ k) (page_skips evs)
    ∧ (has_more_pages v = true → ∃ rest, page_skips evs = offset v :: rest)
    ∧ (confirmed args = false → store w' = store w).
Proof.
  revert v w. induction pages as [|pages IH]; intros v w; simpl.
  - destruct (has_more_pages v) eqn:Hmore; [done|].
    unfold bind, emit, ret. simpl. intros [= <- <-]. exists []. simpl.
    split_and!; try done; try lia; try constructor.
    by destruct (confirmed args).
  - destruct (has_more_pages v) eqn:Hmore.
    + unfold bind at 1.
      destruct (process_page fuel args v w) as [[v1 w1]|] eqn:Hpage; [|done].
      intros Hrest.
      apply IH in Hrest
        as (evs2 & Htr2 & Hend & Htot2 & Hgs2 & Hreq2 & Hco2 & Hso2 & Hlo2
            & _ & Hdry2).
      apply process_page_effects in Hpage as (v0 & evs1 & Htr1 & He & -> & Hdry1).
      destruct He as (E1 & E2 & E3 & E4 & E5 & E6 & E7 & E8 & E9 & E10).
      simpl in *.
      assert (offset v ≤ offset v0
              + Z.max 0 (Z.of_nat (length (data (api_get (store w)
                                     (str "sort:date_created") (offset v))))
                         - leads_merged_this_page v0)) as Hle by lia.
      eexists (GetLeads _ _ _ :: evs1 ++ evs2).
      rewrite Htr2, Htr1, <- !app_assoc. simpl. rewrite <- !app_assoc.
      split; [done|].
      rewrite duplicate_groups_app, merge_requests_app, completions_app,
        page_skips_app, length_app, group_requests_app, Forall_app.
      rewrite E8, E9, E10, Hreq2, Hco2. simpl.
      split_and!; try done; try lia.
      * by destruct (confirmed args).
      * constructor; [done|].
        eapply Forall_impl; [exact Hlo2|]. simpl. intros; lia.
      * constructor; [lia|].
        eapply Forall_impl; [exact Hlo2|]. simpl. intros; lia.
      * eauto.
      * intros Hc. rewrite Hdry2, Hdry1; done.
    + unfold bind, emit, ret. simpl. intros [= <- <-]. exists []. simpl.
      split_and!; try done; try lia; try constructor.
      by destruct (confirmed args).
Qed.

End WalkMore.

Section RunProperties.
Context {udb : UnicodeDB} {S : Type} {api : RemoteStore S}.

(** X6. By email or by phone, a lead that has no such value is passed
    over: no request is issued, nothing is merged, and the variables are
    as before. *)
Theorem lead_without_values_passed_over fuel args lead v (w : World S) :
  field args ≠ Company →
  elem_values (field args) lead = [] →
  process_lead fuel args lead v w = Some (v, w).
Proof.
  intros Hf Hvals. unfold process_lead. case_bool_decide; [done|].
  unfold bind, find_duplicates_for_lead.
  replace (search_values lead (field args)) with (@nil (list Z))
    by (by destruct (field args)).
  simpl. unfold ret. do 2 f_equal. destruct v. unfold add_duplicates. simpl.
  f_equal. apply union_empty_r_L.
Qed.

(** X7. Within a page no lead found as a duplicate is later made a
    destination: the destination of every group reported is neither a
    duplicate of an earlier group of the page nor one of its own group;
    and when the page is done the subsumed set holds exactly the IDs of
    the duplicates of the groups reported. *)
Theorem sources_never_destinations fuel args v (w : World S) v' w' :
  process_page fuel args v w = Some (v', w') →
  ∃ e evs,
    trace w' = trace w ++ e :: evs
    ∧ destinations_fresh ∅ (duplicate_groups evs)
    ∧ Forall (λ g, Forall (λ l, lead_id l ≠ lead_id (fst g)) (snd g))
             (duplicate_groups evs)
    ∧ duplicates_this_page v'
      = list_to_set (group_sources (duplicate_groups evs)).
Proof.
  intros Hpage.
  apply process_page_effects in Hpage as (v1 & evs & Htr & He & -> & _).
  destruct He as (_ & _ & _ & _ & E5 & E6 & E7 & _).
  eexists _, evs. split; [exact Htr|]. simpl in *.
  split_and!; [done| |by rewrite E5, union_empty_l_L].
  eapply Forall_impl; [exact E7|]. by intros g [_ ?].
Qed.

(** X8. The merge requests of a whole run are those that the groups
    reported call for: with [--confirmed], for every group in the order
    reported, one request for each of its duplicates, in order, into the
    lead that was being visited; without, none. *)
Theorem merges_follow_groups pages fuel args (w : World S) v' w' :
  main pages fuel args w = Some (v', w') →
  ∃ evs,
    trace w' = trace w ++ evs
    ∧ merge_requests evs
      = (if confirmed args then group_requests (duplicate_groups evs) else []).
Proof.
  intros Hrun. apply walk_effects in Hrun
    as (evs & Htr & _ & _ & _ & Hreq & _).
  exists (evs ++ [LogComplete (total_leads_merged v')]).
  split; [done|].
  rewrite merge_requests_app, duplicate_groups_app. simpl.
  by rewrite !app_nil_r.
Qed.

(** X9. No lead is ever merged into itself: in every merge request of a
    run the source and the destination are different IDs. *)
Theorem no_lead_merged_into_itself pages fuel args (w : World S) v' w' :
  main pages fuel args w = Some (v', w') →
  ∃ evs,
    trace w' = trace w ++ evs
    ∧ Forall (λ r : unicode * unicode, fst r ≠ snd r) (merge_requests evs).
Proof.
  intros Hrun. apply walk_effects in Hrun
    as (evs & Htr & _ & _ & Hgs & Hreq & _).
  exists (evs ++ [LogComplete (total_leads_merged v')]).
  split; [done|].
  rewrite merge_requests_app. simpl. rewrite app_nil_r, Hreq.
  destruct (confirmed args); [by apply group_requests_sound|constructor].
Qed.

(** X10. The total reported at the end of a run is the number of groups
    reported (of destination leads), not the number of leads merged away:
    the run ends with the one line that reports it, and the loop has then
    seen [has_more] false. *)
Theorem total_counts_groups pages fuel args (w : World S) v' w' :
  main pages fuel args w = Some (v', w') →
  ∃ evs,
    trace w'
      = trace w
          ++ evs ++ [LogComplete (Z.of_nat (length (duplicate_groups evs)))]
    ∧ completions evs = []
    ∧ total_leads_merged v' = Z.of_nat (length (duplicate_groups evs))
    ∧ has_more_pages v' = false.
Proof.
  intros Hrun. apply walk_effects in Hrun
    as (evs & Htr & Hend & Htot & _ & _ & Hco & _).
  change (total_leads_merged initial_vars) with 0 in Htot.
  rewrite Z.add_0_l in Htot. exists evs. rewrite <- Htot. done.
Qed.

(** X11. A dry run changes nothing: without [--confirmed] the whole run
    issues no merge request and leaves the store as it was. *)
Theorem dry_run_changes_nothing pages fuel args (w : World S) v' w' :
  confirmed args = false →
  main pages fuel args w = Some (v', w') →
  store w' = store w
  ∧ ∃ evs, trace w' = trace w ++ evs ∧ merge_requests evs = [].
Proof.
  intros Hdry Hrun. apply walk_effects in Hrun
    as (evs & Htr & _ & _ & _ & Hreq & _ & _ & _ & _ & Hst).
  split; [by apply Hst|].
  exists (evs ++ [LogComplete (total_leads_merged v')]).
  split; [done|].
  rewrite merge_requests_app, Hreq, Hdry. done.
Qed.

(** X12. The pages of a run are fetched at offsets that never go back: the
    first at 0, every next one at the same offset or further. *)
Theorem page_offsets_never_go_back pages fuel args (w : World S) v' w' :
  main pages fuel args w = Some (v', w') →
  ∃ evs rest,
    trace w' = trace w ++ evs
    ∧ page_skips evs = 0 :: rest
    ∧ StronglySorted Z.le (page_skips evs).
Proof.
  intros Hrun. apply walk_effects in Hrun
    as (evs & Htr & _ & _ & _ & _ & _ & Hso & _ & Hfirst & _).
  destruct Hfirst as [rest Hrest]; [done|].
  exists (evs ++ [LogComplete (total_leads_merged v')]), rest.
  split; [done|]. rewrite page_skips_app. simpl. by rewrite app_nil_r.
Qed.

(** X13. A page moves the offset forward by no more than its length, and
    never back; it stays where it is when the leads counted as merged
    are as many as the leads of the page, or more. *)
Theorem page_offset_step_bounded fuel args v (w : World S) v' w' :
  process_page fuel args v w = Some (v', w') →
  let n := Z.of_nat (length (data (api_get (store w)
                                     (str "sort:date_created") (offset v)))) in
  offset v ≤ offset v' ≤ offset v + n
  ∧ (n ≤ leads_merged_this_page v' → offset v' = offset v).
Proof.
  intros Hpage.
  apply process_page_effects in Hpage as (v1 & evs & Htr & He & -> & _).
  destruct He as (_ & E2 & _ & E4 & _). simpl in *.
  pose proof (leads_in_groups_nonneg (duplicate_groups evs)). lia.
Qed.

(** X14. An empty store: when the first page is empty and the last, the
    run is this one request and the report of a total of 0. *)
Theorem empty_first_page pages fuel args (w : World S) :
  let resp := api_get (store w) (str "sort:date_created") 0 in
  data resp = [] → has_more resp = false →
  ∃ v',
    main (Datatypes.S pages) fuel args w
      = Some (v', MkWorld (store w)
                    (trace w ++ [GetLeads (str "sort:date_created") 0 resp;
                                 LogComplete 0]))
    ∧ offset v' = 0 ∧ total_leads_merged v' = 0.
Proof.
  intros resp Hdata Hmore.
  assert (process_page fuel args initial_vars w
          = Some (finish_page resp (start_page initial_vars),
                  MkWorld (store w)
                    (trace w ++ [GetLeads (str "sort:date_created") 0 resp])))
    as Hpage.
  { unfold process_page, bind, get. simpl. fold resp. by rewrite Hdata. }
  unfold main. cbn [walk initial_vars has_more_pages].
  unfold bind at 1. rewrite Hpage.
  exists (finish_page resp (start_page initial_vars)).
  split; [|simpl; unfold resp in *; by rewrite Hdata].
  destruct pages; cbn [walk finish_page has_more_pages]; rewrite Hmore;
    unfold bind, emit, ret; simpl; by rewrite <- app_assoc.
Qed.

End RunProperties.

(** ** The progress bar *)

Lemma pbar_step_spec pbar :
  0 ≤ currval pbar ≤ maxval pbar →
  pbar_step pbar
  = Some {| currval := currval pbar + 1;
            maxval := Z.max (maxval pbar) (currval pbar + 1) |}.
Proof.
  intros Hp. unfold pbar_step, pbar_update.
  destruct (Z.gtb_spec (currval pbar + 1) (maxval pbar)); simpl.
  - rewrite !(proj2 (Z.leb_le _ _)) by lia. simpl. f_equal. f_equal. lia.
  - rewrite !(proj2 (Z.leb_le _ _)) by lia. simpl. f_equal. f_equal. lia.
Qed.

Lemma pbar_steps_spec n pbar :
  0 ≤ currval pbar ≤ maxval pbar →
  pbar_steps n pbar
  = Some {| currval := currval pbar + Z.of_nat n;
            maxval := Z.max (maxval pbar) (currval pbar + Z.of_nat n) |}.
Proof.
  revert pbar. induction n as [|n IH]; intros pbar Hp.
  - simpl. destruct pbar as [c m]. simpl in *. f_equal. f_equal; lia.
  - cbn [pbar_steps]. rewrite pbar_step_spec by done.
    rewrite IH by (simpl; lia). simpl. f_equal. f_equal; lia.
Qed.

(** X15. The progress bar never overflows: started with the total
    announced and brought to the offset, the bar refuses no update however
    many leads are then visited; its value counts the leads visited,
    skipped ones too, and [maxval] is raised just enough when more leads
    are seen than were announced. *)
Theorem progress_bar_never_overflows total_leads offset n :
  0 ≤ offset ≤ total_leads →
  ∃ pbar,
    pbar_start total_leads offset = Some pbar
    ∧ pbar_steps n pbar
      = Some {| currval := offset + Z.of_nat n;
                maxval := Z.max total_leads (offset + Z.of_nat n) |}.
Proof.
  intros Hoff. unfold pbar_start, pbar_update. cbn [currval maxval].
  rewrite (proj2 (Z.ltb_ge total_leads 0)) by lia.
  rewrite (proj2 (Z.leb_le 0 total_leads)) by lia. simpl.
  rewrite (proj2 (Z.leb_le 0 offset)) by lia.
  rewrite (proj2 (Z.leb_le offset total_leads)) by lia. simpl.
  eexists. split; [reflexivity|]. by rewrite pbar_steps_spec.
Qed.

Section DryRun.
Context {udb : UnicodeDB} {S : Type} {api : RemoteStore S}.

(** One lead of a page in a dry run, as a function of the store. *)
Lemma process_lead_dry fuel args lead v (w : World S) :
  confirmed args = false →
  process_lead fuel args lead v w
  = if bool_decide (lead_id lead ∈ duplicates_this_page v) then Some (v, w)
    else
      (λ evs,
         let d := List.filter (kept (field args) lead) (fetched evs) in
         match d with
         | [] => (add_duplicates d v, MkWorld (store w) (trace w ++ evs))
         | _ => (count_merge d (add_duplicates d v),
                 MkWorld (store w)
                   ((trace w ++ evs) ++ [LogDuplicates lead d]))
         end) <$> finder_requests fuel (store w) lead (field args).
Proof.
  intros Hdry. unfold process_lead. case_bool_decide; [done|].
  unfold bind at 1. rewrite find_duplicates_spec.
  destruct (finder_requests _ _ _ _) as [evs|]; [|done]. simpl.
  destruct (List.filter _ _) as [|d ds]; [done|].
  unfold bind, emit, merge_lead. by rewrite Hdry.
Qed.

Lemma process_leads_dry_agree fuel args leads v1 v2 (w1 w2 : World S)
    a wa b wb :
  confirmed args = false →
  store w1 = store w2 →
  leads_merged_this_page v1 = leads_merged_this_page v2 →
  duplicates_this_page v1 = duplicates_this_page v2 →
  process_leads fuel args leads v1 w1 = Some (a, wa) →
  process_leads fuel args leads v2 w2 = Some (b, wb) →
  leads_merged_this_page a = leads_merged_this_page b.
Proof.
  intros Hdry. revert v1 v2 w1 w2.
  induction leads as [|lead leads IH]; intros v1 v2 w1 w2 Hst Hn Hd; simpl.
  - by intros [= <- <-] [= <- <-].
  - unfold bind. rewrite !process_lead_dry by done.
    rewrite Hd, Hst. case_bool_decide.
    + by apply IH.
    + destruct (finder_requests _ _ _ _) as [evs|]; [|done]. simpl.
      destruct (List.filter _ _) as [|d ds]; apply IH; simpl;
        congruence.
Qed.

Lemma process_page_dry_agree fuel args v1 v2 (w1 w2 : World S) a wa b wb :
  confirmed args = false →
  store w1 = store w2 → offset v1 = offset v2 →
  process_page fuel args v1 w1 = Some (a, wa) →
  process_page fuel args v2 w2 = Some (b, wb) →
  offset a = offset b ∧ has_more_pages a = has_more_pages b
  ∧ store wb = store w2.
Proof.
  intros Hdry Hst Hoff Ha Hb.
  destruct (process_page_run _ _ _ _ _ _ Hb)
    as (evsb & _ & _ & _ & _ & Hsb).
  split_and!; [| |by apply Hsb].
  - revert Ha Hb. unfold process_page, bind at 1 3, get. simpl.
    unfold bind.
    destruct (process_leads _ _ _ (start_page v1) _)
      as [[a1 wa1]|] eqn:E1; [|done].
    destruct (process_leads _ _ _ (start_page v2) _)
      as [[b1 wb1]|] eqn:E2; [|done].
    intros [= <- <-] [= <- <-]. simpl.
    rewrite Hst, Hoff in E1.
    assert (leads_merged_this_page a1 = leads_merged_this_page b1) as ->
      by (by eapply (process_leads_dry_agree fuel args _
                       (start_page v1) (start_page v2) _ _ a1 wa1 b1 wb1
                       Hdry); [| | |exact E1|exact E2]).
    apply process_leads_run in E1 as (_ & _ & _ & -> & _).
    apply process_leads_run in E2 as (_ & _ & _ & -> & _).
    simpl. by rewrite Hst, Hoff.
  - apply process_page_run in Ha as (_ & _ & _ & _ & -> & _).
    apply process_page_run in Hb as (_ & _ & _ & _ & -> & _).
    by rewrite Hst, Hoff.
Qed.

(** X16. A dry run can go on for ever. Without [--confirmed], when a page
    ends with [has_more] and with the offset where it began (the leads
    counted as merged were as many as the leads of the page), the next
    turn fetches the same page of the same store, and so does every turn
    after it: the loop does not end, however many pages it is given. *)
Theorem dry_run_without_progress_never_ends fuel args v (w : World S)
    v' w' :
  confirmed args = false →
  has_more_pages v = true →
  process_page fuel args v w = Some (v', w') →
  has_more_pages v' = true →
  offset v' = offset v →
  ∀ pages, walk pages fuel args v w = None.
Proof.
  intros Hdry Hmore Hpage Hmore' Hoff pages.
  assert (∀ v2 (w2 : World S),
            store w2 = store w → offset v2 = offset v →
            has_more_pages v2 = true →
            walk pages fuel args v2 w2 = None) as Hloop; [|by apply Hloop].
  induction pages as [|pages IH]; intros v2 w2 Hst Hoff2 Hmore2; simpl;
    rewrite Hmore2; [done|].
  unfold bind.
  destruct (process_page fuel args v2 w2) as [[b wb]|] eqn:Hb; [|done].
  destruct (process_page_dry_agree fuel args v v2 w w2 v' w' b wb)
    as (Hob & Hmb & Hsb); try done.
  apply IH; congruence.
Qed.

End DryRun.

(** ** The further properties, run *)

Section MoreRuns.
Import Scenario.
#[local] Existing Instance ascii_db.
#[local] Existing Instance ListStore.remote.

Lemma finder_only_reads_witness :
  ∃ duplicates w',
    find_duplicates_for_lead 5 leadC Email world = Some (duplicates, w')
    ∧ store w' = store world
    ∧ ∃ evs,
        trace w' = trace world ++ evs
        ∧ Forall (λ e, ∃ k resp,
                    e = GetLeads (build_query Email (search_values leadC Email))
                                 k resp) evs
        ∧ merge_requests evs = [] ∧ duplicate_groups evs = []
        ∧ completions evs = [].
Proof.
  eexists _, _. split; [vm_compute; reflexivity|].
  eapply (finder_only_reads 5 leadC Email world). vm_compute. reflexivity.
Defined.

Lemma finder_keeps_fetch_order_witness :
  ∃ duplicates w',
    find_duplicates_for_lead 5 leadA Company world = Some (duplicates, w')
    ∧ ∃ evs,
        trace w' = trace world ++ evs
        ∧ duplicates
          = List.filter
              (λ l, negb (bool_decide (lead_id l = lead_id leadA))
                    && is_exact_match Company leadA l)
              (fetched evs).
Proof.
  eexists _, _. split; [vm_compute; reflexivity|].
  eapply (finder_keeps_fetch_order 5 leadA Company world).
  vm_compute. reflexivity.
Defined.

(** The three Acme leads of the numbered store. *)
Lemma matching_symmetric_witness :
  kept Company (numbered 0) (numbered 1) = true
  ∧ kept Company (numbered 1) (numbered 2) = true
  ∧ kept Company (numbered 0) (numbered 2) = true
  ∧ kept Email leadC leadD = kept Email leadD leadC.
Proof.
  assert (kept Company (numbered 0) (numbered 1) = true) as H01
    by (vm_compute; reflexivity).
  assert (kept Company (numbered 1) (numbered 2) = true) as H12
    by (vm_compute; reflexivity).
  split_and!; [exact H01|exact H12| |].
  - apply (matching_symmetric Company (numbered 0) (numbered 1) (numbered 2));
      [exact H01|exact H12|discriminate].
  - apply (matching_symmetric Email leadC leadD leadC).
Defined.

Lemma blank_company_names_match_witness :
  kept Company blankA blankB = true
  ∧ finder_requests 5 leads blankA Company
    = search_requests 5 leads (build_query Company [name blankA]) 0.
Proof.
  apply (blank_company_names_match 5 leads blankA blankB).
  - by_evaluation.
  - by_evaluation.
  - discriminate.
Defined.

(** [leadA] has no contact, hence no email. *)
Lemma lead_without_values_passed_over_witness :
  process_lead 5 (dry_run Email) leadA initial_vars world
  = Some (initial_vars, world).
Proof.
  apply (lead_without_values_passed_over 5 (dry_run Email) leadA).
  - discriminate.
  - reflexivity.
Defined.

Lemma sources_never_destinations_witness :
  ∃ v' w',
    process_page 5 (for_real Company) initial_vars world = Some (v', w')
    ∧ ∃ e evs,
        trace w' = trace world ++ e :: evs
        ∧ destinations_fresh ∅ (duplicate_groups evs)
        ∧ Forall (λ g, Forall (λ l, lead_id l ≠ lead_id (fst g)) (snd g))
                 (duplicate_groups evs)
        ∧ duplicates_this_page v'
          = list_to_set (group_sources (duplicate_groups evs)).
Proof.
  eexists _, _. split; [vm_compute; reflexivity|].
  eapply (sources_never_destinations 5 (for_real Company) initial_vars world).
  vm_compute. reflexivity.
Defined.

Lemma merges_follow_groups_witness :
  ∃ v' w',
    main 5 5 (for_real Email) world = Some (v', w')
    ∧ ∃ evs,
        trace w' = trace world ++ evs
        ∧ merge_requests evs = group_requests (duplicate_groups evs).
Proof.
  eexists _, _. split; [vm_compute; reflexivity|].
  eapply (merges_follow_groups 5 5 (for_real Email) world).
  vm_compute. reflexivity.
Defined.

Lemma no_lead_merged_into_itself_witness :
  ∃ v' w',
    main 5 5 (for_real Company) world = Some (v', w')
    ∧ ∃ evs,
        trace w' = trace world ++ evs
        ∧ Forall (λ r : unicode * unicode, fst r ≠ snd r)
                 (merge_requests evs).
Proof.
  eexists _, _. split; [vm_compute; reflexivity|].
  eapply (no_lead_merged_into_itself 5 5 (for_real Company) world).
  vm_compute. reflexivity.
Defined.

Lemma total_counts_groups_witness :
  ∃ v' w',
    main 5 5 (for_real Company) world = Some (v', w')
    ∧ ∃ evs,
        trace w'
          = trace world
              ++ evs
              ++ [LogComplete (Z.of_nat (length (duplicate_groups evs)))]
        ∧ completions evs = []
        ∧ total_leads_merged v' = Z.of_nat (length (duplicate_groups evs))
        ∧ has_more_pages v' = false.
Proof.
  eexists _, _. split; [vm_compute; reflexivity|].
  eapply (total_counts_groups 5 5 (for_real Company) world).
  vm_compute. reflexivity.
Defined.

Lemma dry_run_changes_nothing_witness :
  ∃ v' w',
    main 5 5 (dry_run Email) world = Some (v', w')
    ∧ store w' = store world
    ∧ ∃ evs, trace w' = trace world ++ evs ∧ merge_requests evs = [].
Proof.
  eexists _, _. split; [vm_compute; reflexivity|].
  eapply (dry_run_changes_nothing 5 5 (dry_run Email) world);
    [reflexivity|]. vm_compute. reflexivity.
Defined.

Lemma page_offset_step_bounded_witness :
  ∃ v' w',
    process_page 5 (for_real Company) initial_vars world = Some (v', w')
    ∧ (0 ≤ offset v' ≤ 0 + 5)
    ∧ (5 ≤ leads_merged_this_page v' → offset v' = 0).
Proof.
  eexists _, _. split; [vm_compute; reflexivity|].
  refine (page_offset_step_bounded 5 (for_real Company) initial_vars world
            _ _ _).
  vm_compute. reflexivity.
Defined.

Lemma empty_first_page_witness :
  ∃ v',
    main 1 5 (for_real Company) empty_world
      = Some (v', MkWorld []
                    [GetLeads (str "sort:date_created") 0
                       (ListStore.get_page ListStore.page_limit [] 0);
                     LogComplete 0])
    ∧ offset v' = 0 ∧ total_leads_merged v' = 0.
Proof.
  exact (empty_first_page 0 5 (for_real Company) empty_world
           eq_refl eq_refl).
Defined.

(** Three leads announced, five visited. *)
Lemma progress_bar_never_overflows_witness :
  ∃ pbar,
    pbar_start 3 0 = Some pbar
    ∧ pbar_steps 5 pbar = Some {| currval := 5; maxval := 5 |}.
Proof. apply (progress_bar_never_overflows 3 0 5). lia. Defined.

End MoreRuns.

Section MoreRunsBy2.
Import Scenario.
#[local] Existing Instance ascii_db.
#[local] Existing Instance pages_of_2.

(** Five leads handed out 2 at a time: the search takes three requests,
    at 0, 2 and 4. *)
Lemma finder_pagination_witness :
  ∃ duplicates w',
    find_duplicates_for_lead 5 leadA Company world = Some (duplicates, w')
    ∧ length (trace w') = 3%nat
    ∧ request_skips (trace w') = [0; 2; 4]
    ∧ ∃ evs,
        trace w' = trace world ++ evs
        ∧ Forall (λ e, ∃ k,
                    e = GetLeads (build_query Company
                                    (search_values leadA Company)) k
                          (api_get (store world)
                             (build_query Company
                                (search_values leadA Company)) k))
                 evs
        ∧ request_skips evs = running_sums 0 (answer_sizes evs)
        ∧ answer_flags evs
          = replicate (Nat.pred (length evs)) true ++ [false].
Proof.
  eexists _, _. split; [vm_compute; reflexivity|].
  split; [reflexivity|]. split; [reflexivity|].
  refine (finder_pagination 5 leadA Company world _ _ _ _).
  - discriminate.
  - vm_compute. reflexivity.
Defined.

(** The first page is [leadA] and [leadB], one group of two: the offset
    stays at 0 and the store says there is more. *)
Lemma dry_run_without_progress_never_ends_witness :
  ∃ v' w',
    process_page 5 (dry_run Company) initial_vars world = Some (v', w')
    ∧ has_more_pages v' = true ∧ offset v' = 0
    ∧ ∀ pages, main pages 5 (dry_run Company) world = None.
Proof.
  eexists _, _. split; [vm_compute; reflexivity|].
  split; [reflexivity|]. split; [reflexivity|].
  eapply (dry_run_without_progress_never_ends 5 (dry_run Company)
            initial_vars world).
  - reflexivity.
  - reflexivity.
  - vm_compute. reflexivity.
  - reflexivity.
  - reflexivity.
Defined.

(** The whole walk over the five leads, 2 at a time, with merges: the
    pages are fetched at 0, 0 and 2. *)
Lemma page_offsets_never_go_back_witness :
  ∃ v' w',
    main 9 5 (for_real Company) world = Some (v', w')
    ∧ page_skips (trace w') = [0; 0; 2]
    ∧ ∃ evs rest,
        trace w' = trace world ++ evs
        ∧ page_skips evs = 0 :: rest
        ∧ StronglySorted Z.le (page_skips evs).
Proof.
  eexists _, _. split; [vm_compute; reflexivity|].
  split; [reflexivity|].
  eapply (page_offsets_never_go_back 9 5 (for_real Company) world).
  vm_compute. reflexivity.
Defined.

End MoreRunsBy2.
